(** * Product image gallery: ordering engine and gallery controller

    Shallow embedding of
    - [backend/src/services/productImage/productImageService.ts]
    (the gallery ordering engine), and
    - [frontend/src/domain/product-image/hooks/useProductImageGallery/main.ts]
    (the interactive gallery controller),
    together with the properties of the specification that concern them.

    Conventions.  JavaScript numbers that the zod schemas constrain with
    [.int()] are integers of [Z]; where the engine adds to one of them the
    sum is rounded as a double rounds it ([jsAdd]).  [T | null] and
    optional fields are [option];
    an optional nullable field is [option (option T)].  The wall clock
    ([new Date().toISOString()]) is an explicit argument [now] of every
    operation that reads it. *)

From Stdlib Require Import ZArith List String Bool Lia QArith Qminmax Sorted Lqa.
From Stdlib Require Import Permutation.
Import ListNotations.

#[local] Open Scope string_scope.
#[local] Open Scope Z_scope.

(** ** JavaScript operators used by the sources *)

(** [a ?? b]: [b] when [a] is [undefined]. *)
Definition nullish {A : Type} (a : option A) (b : A) : A :=
  match a with
  | Some v => v
  | None => b
  end.

(** [a ?? b] for an optional nullable [a]: [b] when [a] is [undefined] or
    [null]. *)
Definition nullish2 {A : Type} (a : option (option A)) (b : option A) : option A :=
  match a with
  | Some (Some v) => Some v
  | Some None | None => b
  end.

(** A field of an object spread [{ ...old, ...data }]: the value [data]
    gives when it has the key, else the old one. *)
Definition spread {A : Type} (field : option A) (old : A) : A :=
  match field with
  | Some v => v
  | None => old
  end.

(** Truthiness of an optional boolean. *)
Definition truthyB (a : option bool) : bool := nullish a false.

(** Truthiness of a number. *)
Definition truthyZ (n : Z) : bool := negb (n =? 0).

(** [Math.max(x, ...xs)] on a non-empty argument list. *)
Definition Math_max (x : Z) (xs : list Z) : Z := fold_right Z.max x xs.

(** The double nearest to the integer [n], ties to the even mantissa: every
    integer up to 2^53 in magnitude is a double; a larger one keeps its 53
    leading bits.  ([n] is taken within the range of finite doubles.) *)
Definition roundDouble (n : Z) : Z :=
  let a := Z.abs n in
  if a <=? 2 ^ 53 then n
  else
    let k := Z.log2 a - 52 in
    let q := a / 2 ^ k in
    let r := a mod 2 ^ k in
    let half := 2 ^ (k - 1) in
    let q' := if r <? half then q
              else if half <? r then q + 1
              else if Z.even q then q else q + 1 in
    Z.sgn n * (q' * 2 ^ k).

(** [a + b] on numbers that hold integers. *)
Definition jsAdd (a b : Z) : Z := roundDouble (a + b).

(** [Number.MAX_SAFE_INTEGER] and [Number.isSafeInteger]. *)
Definition MAX_SAFE_INTEGER : Z := 2 ^ 53 - 1.

Definition isSafeInteger (n : Z) : bool := Z.abs n <=? MAX_SAFE_INTEGER.

Module Engine.

(** ** Data model ([productImageTypes.ts]) *)

Record ProductImageEntity : Type := {
  id : Z;
  productId : Z;
  url : string;
  caption : option string;
  isPrimary : bool;
  displayOrder : Z;
  width : Z;
  height : Z;
  rotation : Z;
  dateCreated : string;
  dateModified : string
}.

Module ListResponse.
Record t : Type := {
  id : Z;
  productId : Z;
  url : string;
  caption : option string;
  isPrimary : bool;
  displayOrder : Z;
  dateCreated : string
}.
End ListResponse.
Definition ProductImageListResponse : Type := ListResponse.t.

(** [z.infer<typeof createSchema>] *)
Module CreateInput.
Record t : Type := {
  productId : Z;
  url : string;
  caption : option (option string);
  isPrimary : option bool;
  displayOrder : option Z;
  width : option Z;
  height : option Z;
  rotation : option Z
}.
End CreateInput.

(** [z.infer<typeof updateSchema>] *)
Module UpdateInput.
Record t : Type := {
  url : string;
  caption : option (option string);
  isPrimary : option bool;
  displayOrder : option Z;
  width : option Z;
  height : option Z;
  rotation : option Z
}.
End UpdateInput.

(** [z.infer<typeof reorderSchema>] *)
Module ReorderInput.
Record t : Type := { newOrder : Z }.
End ReorderInput.

(** [Partial<ProductImageEntity>], the second argument of the store's
    [update]: a field is [None] when the object literal does not mention
    it. *)
Module Partial.
Record t : Type := {
  id : option Z;
  productId : option Z;
  url : option string;
  caption : option (option string);
  isPrimary : option bool;
  displayOrder : option Z;
  width : option Z;
  height : option Z;
  rotation : option Z;
  dateCreated : option string;
  dateModified : option string
}.

End Partial.

(** [PRODUCT_IMAGE_DEFAULTS] and [PRODUCT_IMAGE_ROTATION_ANGLES]
    ([constants/productImage/productImageDefaults.ts]). *)
Module PRODUCT_IMAGE_DEFAULTS.
Definition WIDTH : Z := 1200.
Definition HEIGHT : Z := 800.
Definition ROTATION : Z := 0.
End PRODUCT_IMAGE_DEFAULTS.

Module PRODUCT_IMAGE_ROTATION_ANGLES.
Definition ANGLE_0 : Z := 0.
Definition ANGLE_90 : Z := 90.
Definition ANGLE_180 : Z := 180.
Definition ANGLE_270 : Z := 270.
End PRODUCT_IMAGE_ROTATION_ANGLES.

(** ** Errors ([ServiceError]) *)

Inductive ErrorCode : Type := VALIDATION_ERROR | NOT_FOUND.

Record ServiceError : Type := {
  code : ErrorCode;
  message : string;
  statusCode : Z
}.

(** ** The store ([productImageStore]) *)

(** Modelled from the spec: the storage collaborator
    [instances/productImage/productImageStore.ts] is not among the sources.
    Section 6 of the specification lists its operations ([getAll],
    [getByProductId], [getById], [add], [update], [delete], [exists],
    [getNextId]) on "records keyed by integer id".  The model is a map
    from id to record, written as the list of its values, and the counter
    behind [getNextId].  The order of that list is internal: the store
    hands records out in retrieval order ([inRetrievalOrder]). *)
Record ProductImageStore : Type := {
  records : list ProductImageEntity;
  currentId : Z
}.

Module productImageStore.

(** Modelled from the spec: the store of a freshly started engine. *)
Definition init : ProductImageStore := {| records := []; currentId := 0 |}.

(** Modelled from the spec: [getNextId()] "assigns a new unique id"; the
    model advances a counter and returns its new value. *)
Definition getNextId (s : ProductImageStore) : Z * ProductImageStore :=
  (currentId s + 1, {| records := records s; currentId := currentId s + 1 |}).

(** Modelled from the spec: the order of retrieval.  Section 4.1 on list:
    "retrieval order should reflect ascending displayOrder when a product
    filter is given"; on reorder: ties are "resolved by whatever stable
    tertiary key the list operation uses, e.g. id ascending".  The service
    filters what the store returns and does not sort, so the order is the
    store's: [a] comes before [b] when its display order is smaller, or
    equal with an id that is not greater. *)
Definition retrievedBefore (a b : ProductImageEntity) : bool :=
  (displayOrder a <? displayOrder b)
  || ((displayOrder a =? displayOrder b) && (id a <=? id b)).

(** Put [r] at its place among records in retrieval order. *)
Fixpoint insertRetrieved (r : ProductImageEntity) (rs : list ProductImageEntity)
  : list ProductImageEntity :=
  match rs with
  | [] => [r]
  | x :: xs => if retrievedBefore r x then r :: x :: xs else x :: insertRetrieved r xs
  end.

(** Modelled from the spec: the records in retrieval order. *)
Definition inRetrievalOrder (rs : list ProductImageEntity) : list ProductImageEntity :=
  fold_right insertRetrieved [] rs.

(** Modelled from the spec: [getAll()], every record, in retrieval
    order. *)
Definition getAll (s : ProductImageStore) : list ProductImageEntity :=
  inRetrievalOrder (records s).

(** Modelled from the spec: [getByProductId(productId)], the records of
    one product (list-by-parent), in retrieval order. *)
Definition getByProductId (p : Z) (s : ProductImageStore) : list ProductImageEntity :=
  filter (fun r => productId r =? p) (getAll s).

(** Modelled from the spec: [getById(id)], the record stored under [id],
    or [undefined]. *)
Definition getById (i : Z) (s : ProductImageStore) : option ProductImageEntity :=
  find (fun r => id r =? i) (records s).

(** Modelled from the spec: [exists(id)]. *)
Definition exists_ (i : Z) (s : ProductImageStore) : bool :=
  existsb (fun r => id r =? i) (records s).

(** Modelled from the spec: "update(id, partialFields)" keeps every field
    the partial record does not give, as the object spread
    [{ ...existing, ...data }] does. *)
Definition merge (existing : ProductImageEntity) (data : Partial.t) : ProductImageEntity :=
  {| id := spread (Partial.id data) (id existing);
     productId := spread (Partial.productId data) (productId existing);
     url := spread (Partial.url data) (url existing);
     caption := spread (Partial.caption data) (caption existing);
     isPrimary := spread (Partial.isPrimary data) (isPrimary existing);
     displayOrder := spread (Partial.displayOrder data) (displayOrder existing);
     width := spread (Partial.width data) (width existing);
     height := spread (Partial.height data) (height existing);
     rotation := spread (Partial.rotation data) (rotation existing);
     dateCreated := spread (Partial.dateCreated data) (dateCreated existing);
     dateModified := spread (Partial.dateModified data) (dateModified existing) |}.

(** Replace the value stored under key [i], keeping its position. *)
Fixpoint setAt (i : Z) (v : ProductImageEntity) (rs : list ProductImageEntity)
  : list ProductImageEntity :=
  match rs with
  | [] => []
  | r :: rs' => if id r =? i then v :: rs' else r :: setAt i v rs'
  end.

(** Modelled from the spec: [add(record)] inserts the record under its
    id. *)
Definition add (r : ProductImageEntity) (s : ProductImageStore)
  : ProductImageEntity * ProductImageStore :=
  (r, {| records := if exists_ (id r) s then setAt (id r) r (records s)
                    else records s ++ [r];
         currentId := currentId s |}).

(** Modelled from the spec: [update(id, partialFields)] overwrites the
    given fields of the record stored under [id] and returns the new
    record; it returns [undefined] and changes nothing when the id is
    absent. *)
Definition update (i : Z) (data : Partial.t) (s : ProductImageStore)
  : option ProductImageEntity * ProductImageStore :=
  match getById i s with
  | None => (None, s)
  | Some existing =>
      let updated := merge existing data in
      (Some updated,
       {| records := setAt i updated (records s); currentId := currentId s |})
  end.

(** Modelled from the spec: [delete(id)] removes the record stored under
    [id] ("hard removal") and tells whether there was one. *)
Definition delete (i : Z) (s : ProductImageStore) : bool * ProductImageStore :=
  (exists_ i s,
   {| records := filter (fun r => negb (id r =? i)) (records s);
      currentId := currentId s |}).

End productImageStore.

(** ** Store and error monad

    The service functions read and write the module-level store and leave
    by [throw]: a computation maps the store to an error or a result, and
    the store at that point. *)

Definition M (A : Type) : Type :=
  ProductImageStore -> (ServiceError + A) * ProductImageStore.

Definition ret {A : Type} (a : A) : M A := fun s => (inr a, s).

Definition bind {A B : Type} (m : M A) (k : A -> M B) : M B :=
  fun s =>
    match m s with
    | (inl e, s') => (inl e, s')
    | (inr a, s') => k a s'
    end.

Definition throw {A : Type} (e : ServiceError) : M A := fun s => (inl e, s).

(** A read-only store method. *)
Definition query {A : Type} (f : ProductImageStore -> A) : M A :=
  fun s => (inr (f s), s).

(** A store method that may write. *)
Definition call {A : Type} (f : ProductImageStore -> A * ProductImageStore) : M A :=
  fun s => let (a, s') := f s in (inr a, s').

Notation "x <- m ;; k" := (bind m (fun x => k))
  (at level 61, m at next level, right associativity).
Notation "m ;;; k" := (bind m (fun _ => k))
  (at level 61, right associativity).

(** [xs.forEach(f)].  The array is the snapshot the store returned before
    the loop: the body's writes go to the store, and each one only touches
    the record the body is looking at. *)
Fixpoint forEach {A : Type} (f : A -> M unit) (xs : list A) : M unit :=
  match xs with
  | [] => ret tt
  | x :: xs' => f x ;;; forEach f xs'
  end.

(** [if (c) { body }] *)
Definition when (c : bool) (body : M unit) : M unit :=
  if c then body else ret tt.

(** A call whose result is dropped. *)
Definition ignore {A : Type} (m : M A) : M unit := m ;;; ret tt.

Definition validationError (msg : string) : ServiceError :=
  {| code := VALIDATION_ERROR; message := msg; statusCode := 400 |}.

Definition notFound : ServiceError :=
  {| code := NOT_FOUND; message := "Product image not found"; statusCode := 404 |}.

Section Service.

(** zod's checks on strings are parameters of the development: [zUrl]
    stands for [z.string().min(1).max(URL_MAX_LENGTH).url()] and
    [zCaption] for [z.string().max(CAPTION_MAX_LENGTH)]. *)
Variable zUrl : string -> bool.
Variable zCaption : string -> bool.

(** ** Validation ([productImageValidation.ts]) *)

Definition zOptional {A : Type} (check : A -> bool) (a : option A) : bool :=
  match a with
  | Some v => check v
  | None => true
  end.

Definition zNullable {A : Type} (check : A -> bool) (a : option A) : bool :=
  zOptional check a.

Definition zPositive (n : Z) : bool := 0 <? n.
Definition zMin0 (n : Z) : bool := 0 <=? n.

(** The rotation enum: one of the four angles (the schema reads the
    angle as a decimal string and converts it with [parseInt]; the input
    record holds the converted value). *)
Definition zRotation (n : Z) : bool :=
  (n =? PRODUCT_IMAGE_ROTATION_ANGLES.ANGLE_0)
  || (n =? PRODUCT_IMAGE_ROTATION_ANGLES.ANGLE_90)
  || (n =? PRODUCT_IMAGE_ROTATION_ANGLES.ANGLE_180)
  || (n =? PRODUCT_IMAGE_ROTATION_ANGLES.ANGLE_270).

Definition createSchema (body : CreateInput.t) : bool :=
  zPositive (CreateInput.productId body)
  && zUrl (CreateInput.url body)
  && zOptional (zNullable zCaption) (CreateInput.caption body)
  && zOptional zMin0 (CreateInput.displayOrder body)
  && zOptional zPositive (CreateInput.width body)
  && zOptional zPositive (CreateInput.height body)
  && zOptional zRotation (CreateInput.rotation body).

Definition updateSchema (body : UpdateInput.t) : bool :=
  zUrl (UpdateInput.url body)
  && zOptional (zNullable zCaption) (UpdateInput.caption body)
  && zOptional zMin0 (UpdateInput.displayOrder body)
  && zOptional zPositive (UpdateInput.width body)
  && zOptional zPositive (UpdateInput.height body)
  && zOptional zRotation (UpdateInput.rotation body).

Definition reorderSchema (body : ReorderInput.t) : bool :=
  zMin0 (ReorderInput.newOrder body).

(** [paramsSchema], on the id after [z.coerce.number()]. *)
Definition paramsSchema (i : Z) : bool := zPositive i.

(** ** The service ([productImageService.ts]) *)

Definition toListResponse (e : ProductImageEntity) : ProductImageListResponse :=
  {| ListResponse.id := id e;
     ListResponse.productId := productId e;
     ListResponse.url := url e;
     ListResponse.caption := caption e;
     ListResponse.isPrimary := isPrimary e;
     ListResponse.displayOrder := displayOrder e;
     ListResponse.dateCreated := dateCreated e |}.

Definition productImageList (productId_ : option Z) : M (list ProductImageListResponse) :=
  records_ <- query productImageStore.getAll ;;
  let filtered :=
    match productId_ with
    | Some p => if truthyZ p then filter (fun r => productId r =? p) records_ else records_
    | None => records_
    end in
  ret (map toListResponse filtered).

(** The patch of the exclusivity sweep:
    [{ isPrimary: false, dateModified: now }]. *)
Definition unsetPrimary (now : string) : Partial.t :=
  {| Partial.id := None; Partial.productId := None; Partial.url := None;
     Partial.caption := None; Partial.isPrimary := Some false;
     Partial.displayOrder := None; Partial.width := None;
     Partial.height := None; Partial.rotation := None;
     Partial.dateCreated := None; Partial.dateModified := Some now |}.

Definition productImageCreate (now : string) (body : CreateInput.t)
  : M ProductImageEntity :=
  if negb (createSchema body) then throw (validationError "Validation failed")
  else
    let params := body in
    id_ <- call productImageStore.getNextId ;;
    when (truthyB (CreateInput.isPrimary params))
      (existingImages <-
         query (productImageStore.getByProductId (CreateInput.productId params)) ;;
       forEach
         (fun img =>
            when (isPrimary img)
              (ignore (call (productImageStore.update (id img) (unsetPrimary now)))))
         existingImages) ;;;
    displayOrder_ <-
      (let displayOrder0 := nullish (CreateInput.displayOrder params) 0 in
       if displayOrder0 =? 0 then
         existingImages <-
           query (productImageStore.getByProductId (CreateInput.productId params)) ;;
         ret (match map displayOrder existingImages with
              | d :: ds => jsAdd (Math_max d ds) 1
              | [] => 1
              end)
       else ret displayOrder0) ;;
    let newImage :=
      {| id := id_;
         productId := CreateInput.productId params;
         url := CreateInput.url params;
         caption := nullish2 (CreateInput.caption params) None;
         isPrimary := nullish (CreateInput.isPrimary params) false;
         displayOrder := displayOrder_;
         width := nullish (CreateInput.width params) PRODUCT_IMAGE_DEFAULTS.WIDTH;
         height := nullish (CreateInput.height params) PRODUCT_IMAGE_DEFAULTS.HEIGHT;
         rotation := nullish (CreateInput.rotation params) PRODUCT_IMAGE_DEFAULTS.ROTATION;
         dateCreated := now;
         dateModified := now |} in
    call (productImageStore.add newImage) ;;;
    ret newImage.

Definition productImageGet (i : Z) : M ProductImageEntity :=
  if negb (paramsSchema i) then throw (validationError "Invalid ID")
  else
    record <- query (productImageStore.getById i) ;;
    match record with
    | None => throw notFound
    | Some r => ret r
    end.

(** The patch of [productImageUpdate]. *)
Definition updatePatch (now : string) (updateData : UpdateInput.t)
    (existing : ProductImageEntity) : Partial.t :=
  {| Partial.id := None; Partial.productId := None;
     Partial.url := Some (UpdateInput.url updateData);
     Partial.caption := Some (nullish2 (UpdateInput.caption updateData) (caption existing));
     Partial.isPrimary := Some (nullish (UpdateInput.isPrimary updateData) (isPrimary existing));
     Partial.displayOrder :=
       Some (nullish (UpdateInput.displayOrder updateData) (displayOrder existing));
     Partial.width := Some (nullish (UpdateInput.width updateData) (width existing));
     Partial.height := Some (nullish (UpdateInput.height updateData) (height existing));
     Partial.rotation := Some (nullish (UpdateInput.rotation updateData) (rotation existing));
     Partial.dateCreated := None;
     Partial.dateModified := Some now |}.

(** The result is the value of the store's [update], which is
    [undefined] ([None]) for an absent id. *)
Definition productImageUpdate (now : string) (i : Z) (body : UpdateInput.t)
  : M (option ProductImageEntity) :=
  if negb (paramsSchema i) then throw (validationError "Invalid ID")
  else if negb (updateSchema body) then throw (validationError "Validation failed")
  else
    existing_ <- query (productImageStore.getById i) ;;
    match existing_ with
    | None => throw notFound
    | Some existing =>
        let updateData := body in
        when (truthyB (UpdateInput.isPrimary updateData) && negb (isPrimary existing))
          (existingImages <-
             query (productImageStore.getByProductId (productId existing)) ;;
           forEach
             (fun img =>
                when (negb (id img =? i) && isPrimary img)
                  (ignore (call (productImageStore.update (id img) (unsetPrimary now)))))
             existingImages) ;;;
        updated <- call (productImageStore.update i (updatePatch now updateData existing)) ;;
        ret updated
    end.

Definition productImageDelete (i : Z) : M string :=
  if negb (paramsSchema i) then throw (validationError "Invalid ID")
  else
    present <- query (productImageStore.exists_ i) ;;
    if negb present then throw notFound
    else
      call (productImageStore.delete i) ;;;
      ret "Product image deleted successfully".

Definition reorderPatch (now : string) (newOrder : Z) : Partial.t :=
  {| Partial.id := None; Partial.productId := None; Partial.url := None;
     Partial.caption := None; Partial.isPrimary := None;
     Partial.displayOrder := Some newOrder; Partial.width := None;
     Partial.height := None; Partial.rotation := None;
     Partial.dateCreated := None; Partial.dateModified := Some now |}.

Definition productImageReorder (now : string) (i : Z) (body : ReorderInput.t)
  : M string :=
  if negb (paramsSchema i) then throw (validationError "Invalid ID")
  else if negb (reorderSchema body) then throw (validationError "Validation failed")
  else
    let newOrder := ReorderInput.newOrder body in
    existing_ <- query (productImageStore.getById i) ;;
    match existing_ with
    | None => throw notFound
    | Some _ =>
        call (productImageStore.update i (reorderPatch now newOrder)) ;;;
        ret "Product image reordered successfully"
    end.

Definition setPrimaryPatch (now : string) : Partial.t :=
  {| Partial.id := None; Partial.productId := None; Partial.url := None;
     Partial.caption := None; Partial.isPrimary := Some true;
     Partial.displayOrder := None; Partial.width := None;
     Partial.height := None; Partial.rotation := None;
     Partial.dateCreated := None; Partial.dateModified := Some now |}.

Definition productImageSetPrimary (now : string) (i : Z) : M string :=
  if negb (paramsSchema i) then throw (validationError "Invalid ID")
  else
    existing_ <- query (productImageStore.getById i) ;;
    match existing_ with
    | None => throw notFound
    | Some existing =>
        existingImages <-
          query (productImageStore.getByProductId (productId existing)) ;;
        forEach
          (fun img =>
             when (negb (id img =? i) && isPrimary img)
               (ignore (call (productImageStore.update (id img) (unsetPrimary now)))))
          existingImages ;;;
        call (productImageStore.update i (setPrimaryPatch now)) ;;;
        ret "Primary image set successfully"
    end.

End Service.

(** ** Representation invariant and derived notions *)

(** The list is a map: keys are unique, and every key was handed out by
    [getNextId]. *)
Record store_wf (s : ProductImageStore) : Prop := {
  wf_nodup : NoDup (map id (records s));
  wf_bound : forall r, In r (records s) -> 0 < id r <= currentId s;
  wf_counter : 0 <= currentId s
}.

(** A record of product [P] that carries the primary flag. *)
Definition primaryOf (P : Z) (r : ProductImageEntity) : bool :=
  (productId r =? P) && isPrimary r.

(** Number of primary records of product [P]. *)
Definition primaryCount (P : Z) (s : ProductImageStore) : nat :=
  List.length (filter (primaryOf P) (records s)).

(** Invariant I1 for product [P]. *)
Definition atMostOnePrimary (P : Z) (s : ProductImageStore) : Prop :=
  (primaryCount P s <= 1)%nat.

(** What the store's [update] does to one record. *)
Definition updateRecord (i : Z) (data : Partial.t) (r : ProductImageEntity)
  : ProductImageEntity :=
  if id r =? i then productImageStore.merge r data else r.

(** What an exclusivity sweep over product [P] does to one record; [cond]
    is the test of the loop body. *)
Definition sweepRecord (now : string) (P : Z) (cond : ProductImageEntity -> bool)
    (r : ProductImageEntity) : ProductImageEntity :=
  if (productId r =? P) && cond r
  then productImageStore.merge r (unsetPrimary now)
  else r.

(** The loop body shared by the three sweeps. *)
Definition sweepBody (now : string) (cond : ProductImageEntity -> bool)
    (img : ProductImageEntity) : M unit :=
  when (cond img)
    (ignore (call (productImageStore.update (id img) (unsetPrimary now)))).

(** The test of the sweep "other than self" of update and setPrimary. *)
Definition otherPrimary (i : Z) (img : ProductImageEntity) : bool :=
  negb (id img =? i) && isPrimary img.

(** The display order [productImageCreate] gives the new record. *)
Definition resolvedDisplayOrder (body : CreateInput.t) (s : ProductImageStore) : Z :=
  let displayOrder0 := nullish (CreateInput.displayOrder body) 0 in
  if displayOrder0 =? 0 then
    match map displayOrder
            (productImageStore.getByProductId (CreateInput.productId body) s) with
    | d :: ds => jsAdd (Math_max d ds) 1
    | [] => 1
    end
  else displayOrder0.

(** The record [productImageCreate] builds in store [s]. *)
Definition createdImage (now : string) (body : CreateInput.t) (s : ProductImageStore)
  : ProductImageEntity :=
  {| id := currentId s + 1;
     productId := CreateInput.productId body;
     url := CreateInput.url body;
     caption := nullish2 (CreateInput.caption body) None;
     isPrimary := nullish (CreateInput.isPrimary body) false;
     displayOrder := resolvedDisplayOrder body s;
     width := nullish (CreateInput.width body) PRODUCT_IMAGE_DEFAULTS.WIDTH;
     height := nullish (CreateInput.height body) PRODUCT_IMAGE_DEFAULTS.HEIGHT;
     rotation := nullish (CreateInput.rotation body) PRODUCT_IMAGE_DEFAULTS.ROTATION;
     dateCreated := now;
     dateModified := now |}.

(** The engine's operations as data, for statements about sequences. *)
Inductive Operation : Type :=
  | OpCreate (now : string) (body : CreateInput.t)
  | OpUpdate (now : string) (i : Z) (body : UpdateInput.t)
  | OpSetPrimary (now : string) (i : Z)
  | OpReorder (now : string) (i : Z) (body : ReorderInput.t)
  | OpDelete (i : Z).

Section Sequences.

Variable zUrl : string -> bool.
Variable zCaption : string -> bool.

(** The store after a successful operation, [None] when it throws. *)
Definition exec (op : Operation) (s : ProductImageStore) : option ProductImageStore :=
  match op with
  | OpCreate now body =>
      match productImageCreate zUrl zCaption now body s with
      | (inr _, s') => Some s'
      | (inl _, _) => None
      end
  | OpUpdate now i body =>
      match productImageUpdate zUrl zCaption now i body s with
      | (inr _, s') => Some s'
      | (inl _, _) => None
      end
  | OpSetPrimary now i =>
      match productImageSetPrimary now i s with
      | (inr _, s') => Some s'
      | (inl _, _) => None
      end
  | OpReorder now i body =>
      match productImageReorder now i body s with
      | (inr _, s') => Some s'
      | (inl _, _) => None
      end
  | OpDelete i =>
      match productImageDelete i s with
      | (inr _, s') => Some s'
      | (inl _, _) => None
      end
  end.

(** A sequence of operations, all of which succeed. *)
Fixpoint run (ops : list Operation) (s : ProductImageStore) : option ProductImageStore :=
  match ops with
  | [] => Some s
  | op :: ops' =>
      match exec op s with
      | Some s' => run ops' s'
      | None => None
      end
  end.

End Sequences.

(** ** Notions used by the statements *)

(** The specification's "max(existing displayOrder for this productId)
    + 1, or 1 if no siblings exist": [d] is 1 without siblings, and
    otherwise one more than the display order of some sibling and above
    the display order of every sibling. *)
Definition isNextDisplayOrder (siblings : list ProductImageEntity) (d : Z) : Prop :=
  match siblings with
  | [] => d = 1
  | _ :: _ =>
      (exists q, In q siblings /\ d = displayOrder q + 1) /\
      (forall q, In q siblings -> displayOrder q < d)
  end.


(** The update input with the caption key left out. *)
Definition withoutCaption (body : UpdateInput.t) : UpdateInput.t :=
  {| UpdateInput.url := UpdateInput.url body;
     UpdateInput.caption := None;
     UpdateInput.isPrimary := UpdateInput.isPrimary body;
     UpdateInput.displayOrder := UpdateInput.displayOrder body;
     UpdateInput.width := UpdateInput.width body;
     UpdateInput.height := UpdateInput.height body;
     UpdateInput.rotation := UpdateInput.rotation body |}.

(** ** Sample data for concrete runs *)

(** [PRODUCT_IMAGE_LIMITS], the part the string checks use. *)
Module PRODUCT_IMAGE_LIMITS.
Definition URL_MAX_LENGTH : Z := 500.
Definition CAPTION_MAX_LENGTH : Z := 150.
End PRODUCT_IMAGE_LIMITS.

(** An instance of the URL check: the length limits, and an "http"
    prefix in place of zod's URL syntax. *)
Definition sampleUrlCheck (u : string) : bool :=
  (1 <=? Z.of_nat (String.length u))
  && (Z.of_nat (String.length u) <=? PRODUCT_IMAGE_LIMITS.URL_MAX_LENGTH)
  && String.prefix "http" u.

(** An instance of the caption check. *)
Definition sampleCaptionCheck (c : string) : bool :=
  Z.of_nat (String.length c) <=? PRODUCT_IMAGE_LIMITS.CAPTION_MAX_LENGTH.

Definition sampleCreate (p : Z) (u : string) (prim : option bool) (ord : option Z)
  : CreateInput.t :=
  {| CreateInput.productId := p; CreateInput.url := u;
     CreateInput.caption := None; CreateInput.isPrimary := prim;
     CreateInput.displayOrder := ord; CreateInput.width := None;
     CreateInput.height := None; CreateInput.rotation := None |}.

Definition sampleUpdate (u : string) (cap : option (option string))
    (prim : option bool) (ord : option Z) : UpdateInput.t :=
  {| UpdateInput.url := u; UpdateInput.caption := cap;
     UpdateInput.isPrimary := prim; UpdateInput.displayOrder := ord;
     UpdateInput.width := None; UpdateInput.height := None;
     UpdateInput.rotation := None |}.

Definition sampleImage (i p : Z) (u : string) (cap : option string) (prim : bool)
    (ord : Z) (created modified : string) : ProductImageEntity :=
  {| id := i; productId := p; url := u; caption := cap; isPrimary := prim;
     displayOrder := ord; width := 1200; height := 800; rotation := 0;
     dateCreated := created; dateModified := modified |}.

(** Two images of product 9, the first one primary and captioned. *)
Definition galleryStore : ProductImageStore :=
  {| records :=
       [sampleImage 1 9 "https://x/a.jpg" (Some "front") true 4 "t1" "t1";
        sampleImage 2 9 "https://x/b.jpg" None false 2 "t2" "t2"];
     currentId := 2 |}.



(** An image of product 9 created with display order
    [Number.MAX_SAFE_INTEGER], and one created after it without display
    order. *)
Definition saturatedOps : list Operation :=
  [OpCreate "t1" (sampleCreate 9 "https://x/a.jpg" None (Some 9007199254740991));
   OpCreate "t2" (sampleCreate 9 "https://x/b.jpg" None None)].

Definition saturatedStore : ProductImageStore :=
  {| records :=
       [sampleImage 1 9 "https://x/a.jpg" None false 9007199254740991 "t1" "t1";
        sampleImage 2 9 "https://x/b.jpg" None false 9007199254740992 "t2" "t2"];
     currentId := 2 |}.

(** The scenario of the specification's section 8, followed by an update,
    a reorder and a delete. *)
Definition scenarioOps : list Operation :=
  [OpCreate "t1" (sampleCreate 9 "https://x/a.jpg" None None);
   OpCreate "t2" (sampleCreate 9 "https://x/b.jpg" (Some true) None);
   OpSetPrimary "t3" 1;
   OpUpdate "t4" 2 (sampleUpdate "https://x/c.jpg" None (Some true) None);
   OpReorder "t5" 1 {| ReorderInput.newOrder := 7 |};
   OpDelete 2].

(** ** Notions used by the further properties *)

(** The ranges the schemas enforce on the numeric fields of a record. *)
Definition validRecord (r : ProductImageEntity) : Prop :=
  0 < productId r /\ 0 <= displayOrder r /\ 0 < width r /\ 0 < height r /\
  zRotation (rotation r) = true.

(** An operation that throws leaves the store as it found it, and throws
    one of the service's three errors. *)
Definition failsCleanly {A : Type} (m : M A) (s : ProductImageStore) : Prop :=
  forall x s',
    m s = (inl x, s') ->
    s' = s /\
    (x = validationError "Invalid ID" \/ x = validationError "Validation failed" \/
     x = notFound).

(** A computation that returns in every store. *)
Definition neverThrows {A : Type} (m : M A) : Prop :=
  forall s, exists a s', m s = (inr a, s').

(** Two versions of one record: the fields no operation writes. *)
Definition sameIdentity (a b : ProductImageEntity) : Prop :=
  id a = id b /\ productId a = productId b /\ dateCreated a = dateCreated b.

(** The ids the store holds after operation [op], from those it held
    before. *)
Definition idsAfter (op : Operation) (s : ProductImageStore) : list Z :=
  match op with
  | OpCreate _ _ => currentId s + 1 :: map id (productImageStore.getAll s)
  | OpDelete i => filter (fun j => negb (j =? i)) (map id (productImageStore.getAll s))
  | OpUpdate _ _ _ | OpSetPrimary _ _ | OpReorder _ _ _ =>
      map id (productImageStore.getAll s)
  end.

End Engine.

Module Gallery.

(** ** Data model ([types/models.ts]) *)

Module models.
Record ProductImage : Type := {
  id : Z;
  productId : Z;
  url : string;
  caption : option string;
  isPrimary : bool;
  displayOrder : Z;
  width : Z;
  height : Z;
  rotation : Z;
  dateCreated : string;
  dateModified : string
}.
End models.
Definition ProductImage : Type := models.ProductImage.

(** ** The hook's state

    The four [useState] cells of [useProductImageGallery] and the data of
    its list query ([images], [[]] until the query has answered).  The
    zoom level moves in steps of 0.5 between 1.0 and 3.0, values that
    doubles hold exactly; it is a rational here. *)
Record GalleryState : Type := {
  images : list ProductImage;
  currentIndex : Z;
  zoomLevel : Q;
  rotation : Z;
  isFullscreen : bool
}.

(** [useState(0)], [useState(1.0)], [useState(0)], [useState(false)],
    [data: images = []]. *)
Definition initialState : GalleryState :=
  {| images := []; currentIndex := 0; zoomLevel := 1; rotation := 0;
     isFullscreen := false |}.

(** [images.length] *)
Definition imagesLength (st : GalleryState) : Z :=
  Z.of_nat (List.length (images st)).

(** [images?.[currentIndex]]: [undefined] outside the list. *)
Definition currentImage (st : GalleryState) : option ProductImage :=
  if currentIndex st <? 0 then None
  else nth_error (images st) (Z.to_nat (currentIndex st)).

(** JavaScript's [%] on integers truncates towards zero. *)
Definition jsRem (a b : Z) : Z := Z.rem a b.

Definition goToNext (st : GalleryState) : GalleryState :=
  if imagesLength st =? 0 then st
  else
    {| images := images st;
       currentIndex := jsRem (currentIndex st + 1) (imagesLength st);
       zoomLevel := 1;
       rotation := 0;
       isFullscreen := isFullscreen st |}.

Definition goToPrevious (st : GalleryState) : GalleryState :=
  if imagesLength st =? 0 then st
  else
    {| images := images st;
       currentIndex := jsRem (currentIndex st - 1 + imagesLength st) (imagesLength st);
       zoomLevel := 1;
       rotation := 0;
       isFullscreen := isFullscreen st |}.

Definition goToImage (index : Z) (st : GalleryState) : GalleryState :=
  {| images := images st;
     currentIndex := index;
     zoomLevel := 1;
     rotation := 0;
     isFullscreen := isFullscreen st |}.

Definition zoomIn (st : GalleryState) : GalleryState :=
  {| images := images st;
     currentIndex := currentIndex st;
     zoomLevel := Qmin (zoomLevel st + (1 # 2)) 3;
     rotation := rotation st;
     isFullscreen := isFullscreen st |}.

Definition zoomOut (st : GalleryState) : GalleryState :=
  {| images := images st;
     currentIndex := currentIndex st;
     zoomLevel := Qmax (zoomLevel st - (1 # 2)) 1;
     rotation := rotation st;
     isFullscreen := isFullscreen st |}.

Definition resetZoom (st : GalleryState) : GalleryState :=
  {| images := images st;
     currentIndex := currentIndex st;
     zoomLevel := 1;
     rotation := rotation st;
     isFullscreen := isFullscreen st |}.

Definition rotateImage (st : GalleryState) : GalleryState :=
  {| images := images st;
     currentIndex := currentIndex st;
     zoomLevel := zoomLevel st;
     rotation := jsRem (rotation st + 90) 360;
     isFullscreen := isFullscreen st |}.

Definition toggleFullscreen (st : GalleryState) : GalleryState :=
  {| images := images st;
     currentIndex := currentIndex st;
     zoomLevel := zoomLevel st;
     rotation := rotation st;
     isFullscreen := negb (isFullscreen st) |}.

(** The list query delivers new data (first load, or the refetch after
    [invalidateQueries]): only [images] changes, no state cell is
    written. *)
Definition refresh (data : list ProductImage) (st : GalleryState) : GalleryState :=
  {| images := data;
     currentIndex := currentIndex st;
     zoomLevel := zoomLevel st;
     rotation := rotation st;
     isFullscreen := isFullscreen st |}.

(** The keys [handleKeyDown] reacts to. *)
Inductive Key : Type := ArrowLeft | ArrowRight | Home | End_ | Escape | OtherKey.

Definition handleKeyDown (k : Key) (st : GalleryState) : GalleryState :=
  match k with
  | ArrowLeft => goToPrevious st
  | ArrowRight => goToNext st
  | Home => goToImage 0 st
  | End_ => if imagesLength st =? 0 then st else goToImage (imagesLength st - 1) st
  | Escape => if isFullscreen st then toggleFullscreen st else st
  | OtherKey => st
  end.

(** What can happen to an open gallery. *)
Inductive Event : Type :=
  | GoToNext | GoToPrevious | GoToImage (index : Z)
  | ZoomIn | ZoomOut | ResetZoom | RotateImage | ToggleFullscreen
  | KeyDown (k : Key)
  | Refresh (data : list ProductImage).

Definition step (ev : Event) (st : GalleryState) : GalleryState :=
  match ev with
  | GoToNext => goToNext st
  | GoToPrevious => goToPrevious st
  | GoToImage index => goToImage index st
  | ZoomIn => zoomIn st
  | ZoomOut => zoomOut st
  | ResetZoom => resetZoom st
  | RotateImage => rotateImage st
  | ToggleFullscreen => toggleFullscreen st
  | KeyDown k => handleKeyDown k st
  | Refresh data => refresh data st
  end.

(** The state after a sequence of events, oldest first. *)
Definition runEvents (evs : list Event) (st : GalleryState) : GalleryState :=
  fold_left (fun st ev => step ev st) evs st.

(** [currentIndex] within the bounds of the loaded list. *)
Definition indexInBounds (st : GalleryState) : Prop :=
  0 <= currentIndex st <= imagesLength st - 1.

(** ** Sample data for concrete runs *)

Definition galleryImage (i : Z) : ProductImage :=
  {| models.id := i; models.productId := 9; models.url := "https://x/a.jpg";
     models.caption := None; models.isPrimary := false;
     models.displayOrder := i; models.width := 1200; models.height := 800;
     models.rotation := 0; models.dateCreated := "t";
     models.dateModified := "t" |}.

Definition threeImages : list ProductImage :=
  [galleryImage 1; galleryImage 2; galleryImage 3].

(** ** The component's click on the image

    [handleImageClick] of the gallery component, the one handler of the
    component that writes the hook's state: [if (zoomLevel === 1.0)
    zoomIn()]. *)
Definition handleImageClick (st : GalleryState) : GalleryState :=
  if Qeq_bool (zoomLevel st) 1 then zoomIn st else st.

(** What can happen to the view: an event of the hook, or a click on the
    image. *)
Inductive ViewEvent : Type :=
| HookEvent (ev : Event)
| ImageClick.

Definition stepView (ev : ViewEvent) (st : GalleryState) : GalleryState :=
  match ev with
  | HookEvent ev => step ev st
  | ImageClick => handleImageClick st
  end.

Definition runView (evs : list ViewEvent) (st : GalleryState) : GalleryState :=
  fold_left (fun st ev => stepView ev st) evs st.

(** ** Notions used by the further properties *)

(** The zoom levels the view can take. *)
Definition zoomOnGrid (z : Q) : Prop :=
  z == 1 \/ z == 3 # 2 \/ z == 2 \/ z == 5 # 2 \/ z == 3.

(** The rotations the view can take. *)
Definition quarterTurn (r : Z) : Prop :=
  r = 0 \/ r = 90 \/ r = 180 \/ r = 270.

(** An event that keeps to the loaded list of length [n]: no refresh, and
    a jump only to an index of the list. *)
Definition staysInList (n : Z) (ev : ViewEvent) : Prop :=
  match ev with
  | HookEvent (Refresh _) => False
  | HookEvent (GoToImage index) => 0 <= index <= n - 1
  | _ => True
  end.

(** [f] applied [n] times. *)
Fixpoint times (n : nat) (f : GalleryState -> GalleryState) (st : GalleryState)
  : GalleryState :=
  match n with
  | O => st
  | S n' => times n' f (f st)
  end.

End Gallery.

(** * Properties of the ordering engine *)

Module EngineTheory.
Import Engine.

(** ** Lists of records as maps *)

Section StoreLemmas.

Implicit Types (rs : list ProductImageEntity) (r e : ProductImageEntity).

Lemma find_id_None i rs :
  find (fun r => id r =? i) rs = None <-> ~ In i (map id rs).
Proof.
  induction rs as [|r rs IH]; simpl.
  - tauto.
  - destruct (Z.eqb_spec (id r) i) as [E|E].
    + split; [discriminate | intros H; exfalso; apply H; now left].
    + rewrite IH. intuition congruence.
Qed.

Lemma find_id_Some i rs e :
  find (fun r => id r =? i) rs = Some e -> In e rs /\ id e = i.
Proof.
  intros H. apply find_some in H. destruct H as [H1 H2].
  apply Z.eqb_eq in H2. auto.
Qed.

Lemma existsb_id i rs :
  existsb (fun r => id r =? i) rs = true <-> In i (map id rs).
Proof.
  rewrite existsb_exists, in_map_iff. split.
  - intros (r & Hin & E). apply Z.eqb_eq in E. eauto.
  - intros (r & E & Hin). exists r. split; [assumption|]. now apply Z.eqb_eq.
Qed.

Lemma NoDup_id_inj rs a b :
  NoDup (map id rs) -> In a rs -> In b rs -> id a = id b -> a = b.
Proof.
  induction rs as [|r rs IH]; simpl; [tauto|].
  intros Hnd Ha Hb E. inversion Hnd as [|x l Hnotin Hnd']; subst.
  destruct Ha as [Ha|Ha], Hb as [Hb|Hb]; subst.
  - reflexivity.
  - exfalso. apply Hnotin. rewrite E. now apply in_map.
  - exfalso. apply Hnotin. rewrite <- E. now apply in_map.
  - now apply IH.
Qed.

Lemma find_id_In i rs e :
  NoDup (map id rs) -> In e rs -> id e = i ->
  find (fun r => id r =? i) rs = Some e.
Proof.
  intros Hnd Hin E.
  destruct (find (fun r => id r =? i) rs) as [e'|] eqn:F.
  - apply find_id_Some in F. destruct F as [Hin' E'].
    f_equal. apply (NoDup_id_inj rs); congruence.
  - apply find_id_None in F. exfalso. apply F. subst i. now apply in_map.
Qed.

Lemma map_updateRecord_absent i data rs :
  ~ In i (map id rs) -> map (updateRecord i data) rs = rs.
Proof.
  induction rs as [|r rs IH]; simpl; [reflexivity|].
  intros H. unfold updateRecord at 1.
  destruct (Z.eqb_spec (id r) i) as [E|E]; [tauto|].
  rewrite IH; tauto.
Qed.

Lemma setAt_updateRecord i data rs e :
  NoDup (map id rs) ->
  find (fun r => id r =? i) rs = Some e ->
  productImageStore.setAt i (productImageStore.merge e data) rs
  = map (updateRecord i data) rs.
Proof.
  induction rs as [|r rs IH]; simpl; [discriminate|].
  intros Hnd F. inversion Hnd as [|x l Hnotin Hnd']; subst.
  unfold updateRecord at 1.
  destruct (Z.eqb_spec (id r) i) as [E|E].
  - injection F as <-. subst i.
    now rewrite map_updateRecord_absent.
  - f_equal. now apply IH.
Qed.

Lemma setAt_absent i v rs :
  ~ In i (map id rs) -> productImageStore.setAt i v rs = rs.
Proof.
  induction rs as [|r rs IH]; simpl; [reflexivity|].
  intros H. destruct (Z.eqb_spec (id r) i) as [E|E]; [tauto|].
  rewrite IH; tauto.
Qed.

(** Under unique keys the store's [update] is a map over the records. *)
Lemma update_records i data s :
  NoDup (map id (records s)) ->
  productImageStore.update i data s
  = (option_map (fun e => productImageStore.merge e data)
       (productImageStore.getById i s),
     {| records := map (updateRecord i data) (records s);
        currentId := currentId s |}).
Proof.
  intros Hnd. unfold productImageStore.update, productImageStore.getById.
  destruct (find (fun r => id r =? i) (records s)) as [e|] eqn:F; simpl.
  - now rewrite (setAt_updateRecord i data (records s) e).
  - rewrite map_updateRecord_absent by now apply find_id_None.
    now destruct s.
Qed.

Lemma id_merge_unsetPrimary now r :
  id (productImageStore.merge r (unsetPrimary now)) = id r.
Proof. reflexivity. Qed.

Lemma map_id_updateRecord i data rs :
  Partial.id data = None -> map id (map (updateRecord i data) rs) = map id rs.
Proof.
  intros H. rewrite map_map. apply map_ext. intros r.
  unfold updateRecord. destruct (id r =? i); [|reflexivity].
  simpl. now rewrite H.
Qed.

Lemma map_id_sweepRecord now P cond rs :
  map id (map (sweepRecord now P cond) rs) = map id rs.
Proof.
  rewrite map_map. apply map_ext. intros r.
  unfold sweepRecord. now destruct ((productId r =? P) && cond r).
Qed.

(** A sweep over any snapshot [snap], run on a store with unique keys. *)
Lemma forEach_sweepBody now cond snap : forall s,
  NoDup (map id (records s)) ->
  forEach (sweepBody now cond) snap s
  = (inr tt,
     {| records :=
          map (fun r =>
                 if existsb (fun img => cond img && (id img =? id r)) snap
                 then productImageStore.merge r (unsetPrimary now) else r)
              (records s);
        currentId := currentId s |}).
Proof.
  induction snap as [|img snap IH]; intros s Hnd; simpl.
  - unfold ret. rewrite map_id. now destruct s.
  - unfold bind, sweepBody at 1, when.
    destruct (cond img) eqn:C; simpl.
    + unfold ignore, bind, call, ret.
      rewrite update_records by assumption. simpl.
      rewrite IH by (simpl; now rewrite map_id_updateRecord).
      simpl. rewrite map_map. do 2 f_equal.
      apply map_ext. intros r. unfold updateRecord.
      rewrite (Z.eqb_sym (id img) (id r)).
      destruct (id r =? id img) eqn:E; simpl; [|reflexivity].
      now destruct (existsb _ snap).
    + unfold ret. now rewrite IH.
Qed.

(** Retrieval order: the same records, by ascending display order. *)
Lemma In_insertRetrieved x r rs :
  In x (productImageStore.insertRetrieved r rs) <-> x = r \/ In x rs.
Proof.
  induction rs as [|y rs IH]; simpl.
  - intuition.
  - destruct (productImageStore.retrievedBefore r y); simpl; rewrite ?IH; intuition.
Qed.

Lemma In_inRetrievalOrder x rs :
  In x (productImageStore.inRetrievalOrder rs) <-> In x rs.
Proof.
  induction rs as [|r rs IH]; simpl; [tauto|].
  rewrite In_insertRetrieved, IH. intuition.
Qed.

Lemma In_getByProductId P s r :
  In r (productImageStore.getByProductId P s) <-> In r (records s) /\ productId r = P.
Proof.
  unfold productImageStore.getByProductId, productImageStore.getAll.
  now rewrite filter_In, In_inRetrievalOrder, Z.eqb_eq.
Qed.

Lemma Permutation_insertRetrieved r rs :
  Permutation (productImageStore.insertRetrieved r rs) (r :: rs).
Proof.
  induction rs as [|y rs IH]; simpl; [reflexivity|].
  destruct (productImageStore.retrievedBefore r y); [reflexivity|].
  rewrite IH. apply perm_swap.
Qed.

Lemma Permutation_inRetrievalOrder rs :
  Permutation (productImageStore.inRetrievalOrder rs) rs.
Proof.
  induction rs as [|r rs IH]; simpl; [reflexivity|].
  rewrite Permutation_insertRetrieved. now constructor.
Qed.

(** A change of records that keeps ids and display orders keeps their
    places. *)
Lemma inRetrievalOrder_map (g : ProductImageEntity -> ProductImageEntity) rs :
  (forall r, id (g r) = id r) -> (forall r, displayOrder (g r) = displayOrder r) ->
  productImageStore.inRetrievalOrder (map g rs)
  = map g (productImageStore.inRetrievalOrder rs).
Proof.
  intros Hid Hd.
  assert (Hins : forall r l,
             productImageStore.insertRetrieved (g r) (map g l)
             = map g (productImageStore.insertRetrieved r l)).
  { intros r l. induction l as [|y l IHl]; simpl; [reflexivity|].
    unfold productImageStore.retrievedBefore. rewrite !Hid, !Hd.
    destruct ((displayOrder r <? displayOrder y)
              || (displayOrder r =? displayOrder y) && (id r <=? id y)); simpl;
      [reflexivity|now rewrite IHl]. }
  induction rs as [|r rs IH]; simpl; [reflexivity|].
  now rewrite IH, Hins.
Qed.





(** The sweep as the service runs it: over the records of product [P]
    taken from the store itself. *)
Lemma forEach_sweep now cond P s :
  NoDup (map id (records s)) ->
  forEach (sweepBody now cond) (productImageStore.getByProductId P s) s
  = (inr tt,
     {| records := map (sweepRecord now P cond) (records s);
        currentId := currentId s |}).
Proof.
  intros Hnd. rewrite forEach_sweepBody by assumption.
  do 2 f_equal. apply map_ext_in. intros r Hr.
  unfold sweepRecord.
  destruct ((productId r =? P) && cond r) eqn:C.
  - apply andb_prop in C. destruct C as [C1 C2].
    replace (existsb _ _) with true; [reflexivity|].
    symmetry. apply existsb_exists. exists r. split.
    + apply In_getByProductId. split; [assumption|now apply Z.eqb_eq].
    + now rewrite C2, Z.eqb_refl.
  - replace (existsb _ _) with false; [reflexivity|].
    symmetry. apply not_true_is_false. intros H.
    apply existsb_exists in H. destruct H as (img & Hin & H).
    apply In_getByProductId in Hin. destruct Hin as [Hin HP].
    apply andb_prop in H. destruct H as [H1 H2]. apply Z.eqb_eq in H2.
    assert (img = r) by (apply (NoDup_id_inj (records s)); assumption).
    subst img. rewrite (proj2 (Z.eqb_eq _ _) HP), H1 in C. discriminate.
Qed.

End StoreLemmas.

(** ** What each operation does to the store *)

Section ServiceLemmas.
Variable zUrl : string -> bool.
Variable zCaption : string -> bool.
Implicit Types (rs : list ProductImageEntity) (r e : ProductImageEntity).

Lemma find_id_map (g : ProductImageEntity -> ProductImageEntity) i rs :
  (forall r, id (g r) = id r) ->
  find (fun r => id r =? i) (map g rs) = option_map g (find (fun r => id r =? i) rs).
Proof.
  intros Hg. induction rs as [|r rs IH]; simpl; [reflexivity|].
  rewrite Hg. now destruct (id r =? i).
Qed.

Lemma filter_productId_map (g : ProductImageEntity -> ProductImageEntity) P rs :
  (forall r, productId (g r) = productId r) ->
  filter (fun r => productId r =? P) (map g rs)
  = map g (filter (fun r => productId r =? P) rs).
Proof.
  intros Hg. induction rs as [|r rs IH]; simpl; [reflexivity|].
  rewrite Hg, IH. now destruct (productId r =? P).
Qed.

Lemma productId_sweepRecord now P cond r :
  productId (sweepRecord now P cond r) = productId r.
Proof. unfold sweepRecord. now destruct ((productId r =? P) && cond r). Qed.

Lemma id_sweepRecord now P cond r : id (sweepRecord now P cond r) = id r.
Proof. unfold sweepRecord. now destruct ((productId r =? P) && cond r). Qed.

Lemma displayOrder_sweepRecord now P cond r :
  displayOrder (sweepRecord now P cond r) = displayOrder r.
Proof. unfold sweepRecord. now destruct ((productId r =? P) && cond r). Qed.

(** The sweep changes neither which records a product has nor their
    display orders, so both reads of [productImageCreate] see the same
    display orders. *)
Lemma getByProductId_records Q s1 s2 :
  records s1 = records s2 ->
  productImageStore.getByProductId Q s1 = productImageStore.getByProductId Q s2.
Proof.
  intros E. unfold productImageStore.getByProductId, productImageStore.getAll.
  now rewrite E.
Qed.

Lemma displayOrder_getByProductId_sweep now P cond Q s1 s2 :
  records s1 = map (sweepRecord now P cond) (records s2) ->
  map displayOrder (productImageStore.getByProductId Q s1)
  = map displayOrder (productImageStore.getByProductId Q s2).
Proof.
  intros E. unfold productImageStore.getByProductId, productImageStore.getAll.
  rewrite E, inRetrievalOrder_map
    by (intros; (apply id_sweepRecord || apply displayOrder_sweepRecord)).
  rewrite filter_productId_map by apply productId_sweepRecord.
  rewrite map_map. apply map_ext. intros r. apply displayOrder_sweepRecord.
Qed.

Lemma productImageCreate_ok now body s :
  store_wf s -> createSchema zUrl zCaption body = true ->
  productImageCreate zUrl zCaption now body s
  = (inr (createdImage now body s),
     {| records :=
          (if truthyB (CreateInput.isPrimary body)
           then map (sweepRecord now (CreateInput.productId body) isPrimary) (records s)
           else records s) ++ [createdImage now body s];
        currentId := currentId s + 1 |}).
Proof.
  intros [Hnd Hb _] Hv. unfold productImageCreate. rewrite Hv.
  cbv beta iota delta [negb bind query call productImageStore.getNextId when].
  assert (Hfresh : forall rs', map id rs' = map id (records s) ->
            existsb (fun r => id r =? currentId s + 1) rs' = false).
  { intros rs' E. apply not_true_is_false. rewrite existsb_id, E.
    intros H. apply in_map_iff in H. destruct H as (r & Hr & Hin).
    apply Hb in Hin. lia. }
  unfold createdImage, resolvedDisplayOrder.
  destruct (nullish (CreateInput.displayOrder body) 0 =? 0) eqn:D;
    destruct (truthyB (CreateInput.isPrimary body)) eqn:T;
    try rewrite (forEach_sweep now isPrimary) by assumption;
    cbv beta iota delta [ret query productImageStore.add productImageStore.exists_];
    cbn [records currentId id fst snd];
    try rewrite (Hfresh _ (map_id_sweepRecord now _ isPrimary (records s)));
    try rewrite (Hfresh _ eq_refl);
    try rewrite (displayOrder_getByProductId_sweep now (CreateInput.productId body)
                   isPrimary (CreateInput.productId body)
                   {| records := map (sweepRecord now (CreateInput.productId body)
                                        isPrimary) (records s);
                      currentId := currentId s + 1 |} s eq_refl);
    try rewrite (getByProductId_records (CreateInput.productId body)
                   {| records := records s; currentId := currentId s + 1 |} s eq_refl);
    reflexivity.
Qed.

Lemma productImageCreate_invalid now body s :
  createSchema zUrl zCaption body = false ->
  productImageCreate zUrl zCaption now body s
  = (inl (validationError "Validation failed"), s).
Proof. intros Hv. unfold productImageCreate. now rewrite Hv. Qed.

Lemma sweepRecord_self now P i r :
  id r = i -> sweepRecord now P (otherPrimary i) r = r.
Proof.
  intros E. unfold sweepRecord, otherPrimary.
  rewrite (proj2 (Z.eqb_eq _ _) E). simpl. now rewrite andb_false_r.
Qed.

Lemma productImageUpdate_ok now i body s e :
  store_wf s -> paramsSchema i = true -> updateSchema zUrl zCaption body = true ->
  productImageStore.getById i s = Some e ->
  productImageUpdate zUrl zCaption now i body s
  = (inr (Some (productImageStore.merge e (updatePatch now body e))),
     {| records :=
          map (updateRecord i (updatePatch now body e))
            (if truthyB (UpdateInput.isPrimary body) && negb (isPrimary e)
             then map (sweepRecord now (productId e) (otherPrimary i)) (records s)
             else records s);
        currentId := currentId s |}).
Proof.
  intros [Hnd Hb _] Hv Hv' He. unfold productImageUpdate. rewrite Hv, Hv'.
  cbv beta iota delta [negb bind query when]. rewrite He.
  unfold productImageStore.getById in He.
  destruct (truthyB (UpdateInput.isPrimary body) && (if isPrimary e then false else true)) eqn:T.
  - rewrite (forEach_sweep now (otherPrimary i)) by assumption.
    unfold call. rewrite update_records by (simpl; now rewrite map_id_sweepRecord).
    unfold productImageStore.getById. simpl.
    rewrite find_id_map by (intros; apply id_sweepRecord).
    rewrite He. simpl.
    rewrite sweepRecord_self by (now apply find_id_Some in He).
    reflexivity.
  - unfold ret, call. rewrite update_records by assumption.
    unfold productImageStore.getById. rewrite He. reflexivity.
Qed.

Lemma productImageSetPrimary_ok now i s e :
  store_wf s -> paramsSchema i = true ->
  productImageStore.getById i s = Some e ->
  productImageSetPrimary now i s
  = (inr "Primary image set successfully",
     {| records :=
          map (updateRecord i (setPrimaryPatch now))
            (map (sweepRecord now (productId e) (otherPrimary i)) (records s));
        currentId := currentId s |}).
Proof.
  intros [Hnd Hb _] Hv He. unfold productImageSetPrimary. rewrite Hv.
  cbv beta iota delta [negb bind query]. rewrite He.
  rewrite (forEach_sweep now (otherPrimary i)) by assumption.
  unfold call. rewrite update_records by (simpl; now rewrite map_id_sweepRecord).
  reflexivity.
Qed.

Lemma productImageReorder_ok now i body s e :
  store_wf s -> paramsSchema i = true -> reorderSchema body = true ->
  productImageStore.getById i s = Some e ->
  productImageReorder now i body s
  = (inr "Product image reordered successfully",
     {| records :=
          map (updateRecord i (reorderPatch now (ReorderInput.newOrder body)))
            (records s);
        currentId := currentId s |}).
Proof.
  intros [Hnd Hb _] Hv Hv' He. unfold productImageReorder. rewrite Hv, Hv'.
  cbv beta iota delta [negb bind query]. rewrite He.
  unfold call. rewrite update_records by assumption. reflexivity.
Qed.

Lemma productImageDelete_ok i s :
  paramsSchema i = true -> productImageStore.exists_ i s = true ->
  productImageDelete i s
  = (inr "Product image deleted successfully",
     {| records := filter (fun r => negb (id r =? i)) (records s);
        currentId := currentId s |}).
Proof.
  intros Hv He. unfold productImageDelete. rewrite Hv.
  cbv beta iota delta [negb bind query]. rewrite He. reflexivity.
Qed.

Lemma getById_exists i s :
  productImageStore.exists_ i s = false <-> productImageStore.getById i s = None.
Proof.
  unfold productImageStore.exists_, productImageStore.getById.
  rewrite find_id_None, <- existsb_id. now destruct (existsb _ _).
Qed.

End ServiceLemmas.

(** ** Counting primary records *)

Section Counting.

Implicit Types (rs : list ProductImageEntity) (r e : ProductImageEntity).

Lemma filter_length_le {A : Type} (p q : A -> bool) (l : list A) :
  (forall x, In x l -> p x = true -> q x = true) ->
  (List.length (filter p l) <= List.length (filter q l))%nat.
Proof.
  induction l as [|x l IH]; simpl; intros H; [lia|].
  assert (IH' := IH (fun y Hy => H y (or_intror Hy))).
  destruct (p x) eqn:Px.
  - rewrite (H x (or_introl eq_refl) Px). simpl. lia.
  - destruct (q x); simpl; lia.
Qed.

Lemma filter_none {A : Type} (p : A -> bool) (l : list A) :
  (forall x, In x l -> p x = false) -> filter p l = [].
Proof.
  induction l as [|x l IH]; simpl; intros H; [reflexivity|].
  rewrite (H x (or_introl eq_refl)). apply IH. auto.
Qed.

Lemma filter_filter_length {A : Type} (p q : A -> bool) (l : list A) :
  (List.length (filter p (filter q l)) <= List.length (filter p l))%nat.
Proof.
  induction l as [|a l IH]; simpl; [lia|].
  destruct (q a); simpl; destruct (p a); simpl; lia.
Qed.

Lemma filter_id_absent i rs :
  ~ In i (map id rs) -> filter (fun r => id r =? i) rs = [].
Proof.
  induction rs as [|r rs IH]; simpl; intros H; [reflexivity|].
  destruct (Z.eqb_spec (id r) i) as [E|E]; [tauto|].
  apply IH. tauto.
Qed.

Lemma filter_id_length i rs :
  NoDup (map id rs) ->
  (List.length (filter (fun r => (id r =? i)%Z) rs) <= 1)%nat.
Proof.
  induction rs as [|r rs IH]; simpl; intros Hnd; [lia|].
  inversion Hnd as [|x l Hnotin Hnd']; subst.
  destruct (Z.eqb_spec (id r) i) as [E|E]; [|auto].
  subst i. rewrite filter_id_absent by assumption. simpl. lia.
Qed.

Lemma filter_map_length {A B : Type} (p : B -> bool) (g : A -> B) (l : list A) :
  List.length (filter p (map g l)) = List.length (filter (fun x => p (g x)) l).
Proof.
  induction l as [|x l IH]; simpl; [reflexivity|].
  destruct (p (g x)); simpl; now rewrite IH.
Qed.

(** A map that creates no primary record of [P] keeps I1 for [P]. *)
Lemma atMostOnePrimary_map_le P g rs c c' :
  (forall r, In r rs -> primaryOf P (g r) = true -> primaryOf P r = true) ->
  atMostOnePrimary P {| records := rs; currentId := c |} ->
  atMostOnePrimary P {| records := map g rs; currentId := c' |}.
Proof.
  unfold atMostOnePrimary, primaryCount. simpl. intros H Hle.
  rewrite filter_map_length.
  pose proof (filter_length_le (fun r => primaryOf P (g r)) (primaryOf P) rs H).
  lia.
Qed.

(** A map after which every primary record of [P] has key [i] yields
    I1 for [P]. *)
Lemma atMostOnePrimary_map_id P g i rs c :
  NoDup (map id rs) ->
  (forall r, In r rs -> primaryOf P (g r) = true -> id r = i) ->
  atMostOnePrimary P {| records := map g rs; currentId := c |}.
Proof.
  unfold atMostOnePrimary, primaryCount. simpl. intros Hnd H.
  rewrite filter_map_length.
  pose proof (filter_length_le (fun r => primaryOf P (g r)) (fun r => id r =? i) rs) as L.
  pose proof (filter_id_length i rs Hnd).
  assert ((List.length (filter (fun r => primaryOf P (g r)) rs)
           <= List.length (filter (fun r => (id r =? i)%Z) rs))%nat); [|lia].
  apply L. intros r Hin Hp. apply Z.eqb_eq. now apply H.
Qed.

End Counting.

(** ** The representation invariant is preserved *)

Section Invariant.

Variable zUrl : string -> bool.
Variable zCaption : string -> bool.
Implicit Types (rs : list ProductImageEntity) (r e : ProductImageEntity).

Lemma store_wf_init : store_wf productImageStore.init.
Proof. split; simpl; [constructor | tauto | lia]. Qed.

Lemma store_wf_eta s :
  store_wf s -> store_wf {| records := records s; currentId := currentId s |}.
Proof. now destruct s. Qed.

Lemma store_wf_map g rs c c' :
  (forall r, id (g r) = id r) -> c <= c' ->
  store_wf {| records := rs; currentId := c |} ->
  store_wf {| records := map g rs; currentId := c' |}.
Proof.
  intros Hg Hc [Hnd Hb H0]. simpl in *. split; simpl.
  - rewrite map_map. now rewrite (map_ext _ id Hg).
  - intros r Hin. apply in_map_iff in Hin. destruct Hin as (r0 & <- & Hin).
    rewrite Hg. apply Hb in Hin. lia.
  - lia.
Qed.

Lemma store_wf_filter p s :
  store_wf s ->
  store_wf {| records := filter p (records s); currentId := currentId s |}.
Proof.
  intros [Hnd Hb H0]. split; simpl; [| |assumption].
  - clear Hb. induction (records s) as [|r rs IH]; simpl; [constructor|].
    inversion Hnd as [|x l Hnotin Hnd']; subst.
    destruct (p r); simpl; [constructor|]; auto.
    intros H. apply Hnotin. apply in_map_iff in H. destruct H as (x & E & Hx).
    apply filter_In in Hx. apply in_map_iff. exists x. tauto.
  - intros r Hin. apply filter_In in Hin. now apply Hb.
Qed.

Lemma store_wf_snoc rs c e :
  store_wf {| records := rs; currentId := c |} -> id e = c + 1 ->
  store_wf {| records := rs ++ [e]; currentId := c + 1 |}.
Proof.
  intros [Hnd Hb H0] E. simpl in *. split; simpl.
  - rewrite map_app. simpl. apply NoDup_app.
    + assumption.
    + repeat constructor. simpl. tauto.
    + intros x Hx [Hx'|[]]. subst x. apply in_map_iff in Hx.
      destruct Hx as (r & Hr & Hin). apply Hb in Hin. lia.
  - intros r Hin. apply in_app_iff in Hin. destruct Hin as [Hin|[<-|[]]].
    + apply Hb in Hin. lia.
    + lia.
  - lia.
Qed.

End Invariant.

(** ** One operation at a time *)

Section Steps.

Variable zUrl : string -> bool.
Variable zCaption : string -> bool.
Implicit Types (rs : list ProductImageEntity) (r e : ProductImageEntity).

Lemma getById_In i s e :
  productImageStore.getById i s = Some e -> In e (records s) /\ id e = i.
Proof. apply find_id_Some. Qed.

Lemma getById_unique i s e r :
  store_wf s -> productImageStore.getById i s = Some e ->
  In r (records s) -> id r = i -> r = e.
Proof.
  intros [Hnd _ _] He Hin E. apply getById_In in He. destruct He as [Hin' E'].
  apply (NoDup_id_inj (records s)); congruence.
Qed.

Lemma paramsSchema_stored i s e :
  store_wf s -> productImageStore.getById i s = Some e -> paramsSchema i = true.
Proof.
  intros [_ Hb _] He. apply getById_In in He. destruct He as [Hin E].
  apply Hb in Hin. unfold paramsSchema, zPositive. apply Z.ltb_lt. lia.
Qed.

Lemma productImageCreate_inr now body s x s' :
  productImageCreate zUrl zCaption now body s = (inr x, s') ->
  createSchema zUrl zCaption body = true.
Proof.
  destruct (createSchema zUrl zCaption body) eqn:V; [reflexivity|].
  now rewrite productImageCreate_invalid.
Qed.

Lemma productImageUpdate_inr now i body s x s' :
  productImageUpdate zUrl zCaption now i body s = (inr x, s') ->
  paramsSchema i = true /\ updateSchema zUrl zCaption body = true /\
  exists e, productImageStore.getById i s = Some e.
Proof.
  unfold productImageUpdate.
  destruct (paramsSchema i); [|discriminate].
  destruct (updateSchema zUrl zCaption body); [|discriminate].
  cbv beta iota delta [negb bind query].
  destruct (productImageStore.getById i s) as [e|]; [|discriminate].
  eauto.
Qed.

Lemma productImageSetPrimary_inr now i s x s' :
  productImageSetPrimary now i s = (inr x, s') ->
  paramsSchema i = true /\ exists e, productImageStore.getById i s = Some e.
Proof.
  unfold productImageSetPrimary.
  destruct (paramsSchema i); [|discriminate].
  cbv beta iota delta [negb bind query].
  destruct (productImageStore.getById i s) as [e|]; [|discriminate].
  eauto.
Qed.

Lemma productImageReorder_inr now i body s x s' :
  productImageReorder now i body s = (inr x, s') ->
  paramsSchema i = true /\ reorderSchema body = true /\
  exists e, productImageStore.getById i s = Some e.
Proof.
  unfold productImageReorder.
  destruct (paramsSchema i); [|discriminate].
  destruct (reorderSchema body); [|discriminate].
  cbv beta iota delta [negb bind query].
  destruct (productImageStore.getById i s) as [e|]; [|discriminate].
  eauto.
Qed.

Lemma productImageDelete_inr i s x s' :
  productImageDelete i s = (inr x, s') ->
  paramsSchema i = true /\ productImageStore.exists_ i s = true.
Proof.
  unfold productImageDelete.
  destruct (paramsSchema i); [|discriminate].
  cbv beta iota delta [negb bind query].
  destruct (productImageStore.exists_ i s); [|discriminate].
  auto.
Qed.

Lemma primaryOf_unset now P r :
  primaryOf P (productImageStore.merge r (unsetPrimary now)) = false.
Proof. unfold primaryOf. simpl. apply andb_false_r. Qed.

Lemma primaryOf_sweepRecord now P P' cond r :
  primaryOf P (sweepRecord now P' cond r) = true -> primaryOf P r = true.
Proof.
  unfold sweepRecord. destruct ((productId r =? P') && cond r); [|tauto].
  now rewrite primaryOf_unset.
Qed.

(** After a sweep of product [P] "other than [i]" only the record under
    [i] can still be primary in [P]. *)
Lemma primaryOf_sweep_other now P i r :
  primaryOf P (sweepRecord now P (otherPrimary i) r) = true -> id r = i.
Proof.
  unfold sweepRecord, otherPrimary, primaryOf.
  destruct (Z.eqb_spec (id r) i) as [E|E]; [tauto|]. simpl.
  destruct (productId r =? P) eqn:EP; simpl.
  - destruct (isPrimary r) eqn:I; simpl; rewrite ?I, andb_false_r; discriminate.
  - rewrite EP. discriminate.
Qed.

Lemma id_updateRecord i data r :
  Partial.id data = None -> id (updateRecord i data r) = id r.
Proof.
  intros H. unfold updateRecord. destruct (id r =? i); [|reflexivity].
  simpl. now rewrite H.
Qed.

Lemma exec_store_wf op s s' :
  store_wf s -> exec zUrl zCaption op s = Some s' -> store_wf s'.
Proof.
  intros Hwf. pose proof (store_wf_eta s Hwf) as Hwf'.
  destruct op as [now body|now i body|now i|now i body|i]; simpl.
  - destruct (productImageCreate _ _ _ _ _) as [[err|x] s1] eqn:R; [discriminate|].
    intros [= <-]. pose proof (productImageCreate_inr _ _ _ _ _ R) as V.
    rewrite productImageCreate_ok in R by assumption. injection R as _ <-.
    apply store_wf_snoc; [|reflexivity].
    destruct (truthyB _); [|assumption].
    apply (store_wf_map _ _ (currentId s)); [apply id_sweepRecord|lia|assumption].
  - destruct (productImageUpdate _ _ _ _ _ _) as [[err|x] s1] eqn:R; [discriminate|].
    intros [= <-]. destruct (productImageUpdate_inr _ _ _ _ _ _ R) as (V & V' & e & He).
    rewrite (productImageUpdate_ok _ _ _ _ _ _ e) in R by assumption.
    injection R as _ <-.
    apply (store_wf_map _ _ (currentId s));
      [intros r; now apply id_updateRecord|lia|].
    destruct (_ && _); [|assumption].
    apply (store_wf_map _ _ (currentId s)); [apply id_sweepRecord|lia|assumption].
  - destruct (productImageSetPrimary _ _ _) as [[err|x] s1] eqn:R; [discriminate|].
    intros [= <-]. destruct (productImageSetPrimary_inr _ _ _ _ _ R) as (V & e & He).
    rewrite (productImageSetPrimary_ok _ _ _ e) in R by assumption.
    injection R as _ <-.
    apply (store_wf_map _ _ (currentId s));
      [intros r; now apply id_updateRecord|lia|].
    apply (store_wf_map _ _ (currentId s)); [apply id_sweepRecord|lia|assumption].
  - destruct (productImageReorder _ _ _ _) as [[err|x] s1] eqn:R; [discriminate|].
    intros [= <-]. destruct (productImageReorder_inr _ _ _ _ _ _ R) as (V & V' & e & He).
    rewrite (productImageReorder_ok _ _ _ _ e) in R by assumption.
    injection R as _ <-.
    apply (store_wf_map _ _ (currentId s));
      [intros r; now apply id_updateRecord|lia|assumption].
  - destruct (productImageDelete _ _) as [[err|x] s1] eqn:R; [discriminate|].
    intros [= <-]. destruct (productImageDelete_inr _ _ _ _ R) as (V & He).
    rewrite productImageDelete_ok in R by assumption. injection R as _ <-.
    now apply store_wf_filter.
Qed.

Lemma atMostOnePrimary_eta P s :
  atMostOnePrimary P s ->
  atMostOnePrimary P {| records := records s; currentId := currentId s |}.
Proof. now destruct s. Qed.

Lemma atMostOnePrimary_snoc P rs c c' e :
  atMostOnePrimary P {| records := rs; currentId := c |} ->
  primaryOf P e = false ->
  atMostOnePrimary P {| records := rs ++ [e]; currentId := c' |}.
Proof.
  unfold atMostOnePrimary, primaryCount. simpl. intros H He.
  rewrite filter_app, length_app. simpl. rewrite He. simpl. lia.
Qed.

Lemma exec_atMostOnePrimary P op s s' :
  store_wf s -> atMostOnePrimary P s ->
  exec zUrl zCaption op s = Some s' -> atMostOnePrimary P s'.
Proof.
  intros Hwf HI. pose proof (atMostOnePrimary_eta P s HI) as HI'.
  assert (Hnd := wf_nodup s Hwf).
  destruct op as [now body|now i body|now i|now i body|i]; simpl.
  - (* create *)
    destruct (productImageCreate _ _ _ _ _) as [[err|x] s1] eqn:R; [discriminate|].
    intros [= <-]. pose proof (productImageCreate_inr _ _ _ _ _ R) as V.
    rewrite productImageCreate_ok in R by assumption. injection R as _ <-.
    destruct (truthyB (CreateInput.isPrimary body)) eqn:T.
    + destruct (Z.eqb_spec (CreateInput.productId body) P) as [EP|EP].
      * (* the product swept: no primary is left before the insertion *)
        unfold atMostOnePrimary, primaryCount. simpl.
        rewrite filter_app, length_app, filter_map_length.
        replace (filter _ (records s)) with (@nil ProductImageEntity).
        { simpl. destruct (primaryOf P _); simpl; lia. }
        symmetry. apply filter_none. intros r _.
        unfold sweepRecord, primaryOf. subst P.
        destruct (productId r =? CreateInput.productId body) eqn:E; simpl.
        -- destruct (isPrimary r) eqn:I; simpl; rewrite ?I, ?E; simpl;
             auto using andb_false_r.
        -- now rewrite E.
      * apply (atMostOnePrimary_snoc P _ (currentId s)).
        -- apply (atMostOnePrimary_map_le P _ _ (currentId s)); [|assumption].
           intros r _. apply primaryOf_sweepRecord.
        -- unfold primaryOf. simpl.
           now rewrite (proj2 (Z.eqb_neq _ _) EP).
    + apply (atMostOnePrimary_snoc P _ (currentId s)); [assumption|].
      unfold primaryOf. simpl. unfold truthyB in T. rewrite T. apply andb_false_r.
  - (* update *)
    destruct (productImageUpdate _ _ _ _ _ _) as [[err|x] s1] eqn:R; [discriminate|].
    intros [= <-]. destruct (productImageUpdate_inr _ _ _ _ _ _ R) as (V & V' & e & He).
    rewrite (productImageUpdate_ok _ _ _ _ _ _ e) in R by assumption.
    injection R as _ <-.
    destruct (getById_In _ _ _ He) as [Hin Hid].
    destruct (truthyB (UpdateInput.isPrimary body) && negb (isPrimary e)) eqn:T.
    + rewrite map_map.
      destruct (Z.eqb_spec (productId e) P) as [EP|EP].
      * apply (atMostOnePrimary_map_id P _ i); [assumption|].
        intros r Hr. unfold updateRecord. rewrite id_sweepRecord.
        destruct (Z.eqb_spec (id r) i) as [E|E]; [auto|].
        subst P. apply primaryOf_sweep_other.
      * apply (atMostOnePrimary_map_le P _ _ (currentId s)); [|assumption].
        intros r Hr. unfold updateRecord. rewrite id_sweepRecord.
        destruct (Z.eqb_spec (id r) i) as [E|E]; [|apply primaryOf_sweepRecord].
        rewrite (getById_unique i s e r) by assumption.
        unfold primaryOf. simpl. rewrite productId_sweepRecord.
        now rewrite (proj2 (Z.eqb_neq _ _) EP).
    + apply (atMostOnePrimary_map_le P _ _ (currentId s)); [|assumption].
      intros r Hr. unfold updateRecord.
      destruct (Z.eqb_spec (id r) i) as [E|E]; [|tauto].
      rewrite (getById_unique i s e r) by assumption.
      unfold primaryOf. simpl.
      destruct (productId e =? P); [simpl|discriminate].
      unfold truthyB in T.
      destruct (UpdateInput.isPrimary body) as [[|]|], (isPrimary e);
        simpl in *; congruence.
  - (* setPrimary *)
    destruct (productImageSetPrimary _ _ _) as [[err|x] s1] eqn:R; [discriminate|].
    intros [= <-]. destruct (productImageSetPrimary_inr _ _ _ _ _ R) as (V & e & He).
    rewrite (productImageSetPrimary_ok _ _ _ e) in R by assumption.
    injection R as _ <-.
    destruct (getById_In _ _ _ He) as [Hin Hid].
    rewrite map_map.
    destruct (Z.eqb_spec (productId e) P) as [EP|EP].
    + apply (atMostOnePrimary_map_id P _ i); [assumption|].
      intros r Hr. unfold updateRecord. rewrite id_sweepRecord.
      destruct (Z.eqb_spec (id r) i) as [E|E]; [auto|].
      subst P. apply primaryOf_sweep_other.
    + apply (atMostOnePrimary_map_le P _ _ (currentId s)); [|assumption].
      intros r Hr. unfold updateRecord. rewrite id_sweepRecord.
      destruct (Z.eqb_spec (id r) i) as [E|E]; [|apply primaryOf_sweepRecord].
      rewrite (getById_unique i s e r) by assumption.
      unfold primaryOf. simpl. rewrite productId_sweepRecord.
      now rewrite (proj2 (Z.eqb_neq _ _) EP).
  - (* reorder *)
    destruct (productImageReorder _ _ _ _) as [[err|x] s1] eqn:R; [discriminate|].
    intros [= <-]. destruct (productImageReorder_inr _ _ _ _ _ _ R) as (V & V' & e & He).
    rewrite (productImageReorder_ok _ _ _ _ e) in R by assumption.
    injection R as _ <-.
    apply (atMostOnePrimary_map_le P _ _ (currentId s)); [|assumption].
    intros r Hr. unfold updateRecord. now destruct (id r =? i).
  - (* delete *)
    destruct (productImageDelete _ _) as [[err|x] s1] eqn:R; [discriminate|].
    intros [= <-]. destruct (productImageDelete_inr _ _ _ _ R) as (V & He).
    rewrite productImageDelete_ok in R by assumption. injection R as _ <-.
    unfold atMostOnePrimary, primaryCount in *. simpl.
    pose proof (filter_filter_length (primaryOf P)
                  (fun r => negb (id r =? i)) (records s)).
    lia.
Qed.

Lemma run_invariant P ops : forall s s',
  store_wf s -> atMostOnePrimary P s ->
  run zUrl zCaption ops s = Some s' ->
  store_wf s' /\ atMostOnePrimary P s'.
Proof.
  induction ops as [|op ops IH]; simpl; intros s s' Hwf HI R.
  - injection R as <-. auto.
  - destruct (exec zUrl zCaption op s) as [s1|] eqn:E; [|discriminate].
    apply (IH s1); [eapply exec_store_wf|eapply exec_atMostOnePrimary|]; eassumption.
Qed.

End Steps.

(** ** The claims about the engine *)

Section Claims.

Variable zUrl : string -> bool.
Variable zCaption : string -> bool.
Implicit Types (rs : list ProductImageEntity) (r e : ProductImageEntity).

(** Every store the engine can reach from the empty one satisfies the
    representation invariant. *)
Lemma reachable_store_wf ops s :
  run zUrl zCaption ops productImageStore.init = Some s -> store_wf s.
Proof.
  intros R.
  apply (run_invariant zUrl zCaption 0 ops productImageStore.init s);
    [apply store_wf_init| |assumption].
  unfold atMostOnePrimary, primaryCount. simpl. lia.
Qed.

(** C1: for every product [P], a sequence of successful engine operations
    (create, update, setPrimary, reorder, delete) started in a store with
    at most one primary record of [P] ends in a store with at most one
    primary record of [P]. *)
Theorem primary_invariant_preserved P ops s s' :
  store_wf s -> atMostOnePrimary P s ->
  run zUrl zCaption ops s = Some s' ->
  atMostOnePrimary P s'.
Proof.
  intros Hwf HI R.
  now destruct (run_invariant zUrl zCaption P ops s s' Hwf HI R).
Qed.

Lemma Math_max_upper d ds x : In x (d :: ds) -> x <= Math_max d ds.
Proof.
  unfold Math_max. induction ds as [|y ds IH]; simpl.
  - intros [<-|[]]. lia.
  - intros [<-|[<-|H]].
    + specialize (IH (or_introl eq_refl)). lia.
    + lia.
    + specialize (IH (or_intror H)). lia.
Qed.

Lemma Math_max_In d ds : In (Math_max d ds) (d :: ds).
Proof.
  unfold Math_max. induction ds as [|y ds IH]; simpl; [auto|].
  destruct (Z.max_spec y (fold_right Z.max d ds)) as [[_ ->]|[_ ->]]; [|auto].
  simpl in IH. tauto.
Qed.

(** Integers up to 2^53 in magnitude are doubles. *)
Lemma roundDouble_exact n : Z.abs n <= 2 ^ 53 -> roundDouble n = n.
Proof.
  intros H. unfold roundDouble. cbv zeta.
  destruct (Z.leb_spec (Z.abs n) (2 ^ 53)); [reflexivity|lia].
Qed.

Lemma roundDouble_nonneg n : 0 <= n -> 0 <= roundDouble n.
Proof.
  intros H. unfold roundDouble. cbv zeta.
  destruct (Z.leb_spec (Z.abs n) (2 ^ 53)) as [_|Hbig]; [assumption|].
  assert (Hn : 0 < n) by lia.
  rewrite (Z.sgn_pos n Hn), Z.mul_1_l.
  assert (Hp : 0 < 2 ^ (Z.log2 (Z.abs n) - 52)).
  { apply Z.pow_pos_nonneg; [lia|].
    assert (53 <= Z.log2 (Z.abs n)); [|lia].
    apply Z.log2_le_pow2; lia. }
  assert (Hq : 0 <= Z.abs n / 2 ^ (Z.log2 (Z.abs n) - 52))
    by (apply Z.div_pos; lia).
  apply Z.mul_nonneg_nonneg; [|lia].
  repeat match goal with |- context [if ?b then _ else _] => destruct b end; lia.
Qed.

Lemma jsAdd_safe a : isSafeInteger a = true -> jsAdd a 1 = a + 1.
Proof.
  unfold isSafeInteger, MAX_SAFE_INTEGER, jsAdd. intros H.
  apply Z.leb_le in H. apply roundDouble_exact. lia.
Qed.

Lemma resolvedDisplayOrder_next body s :
  CreateInput.displayOrder body = None \/ CreateInput.displayOrder body = Some 0 ->
  (forall q, In q (productImageStore.getByProductId (CreateInput.productId body) s) ->
             isSafeInteger (displayOrder q) = true) ->
  isNextDisplayOrder
    (productImageStore.getByProductId (CreateInput.productId body) s)
    (resolvedDisplayOrder body s).
Proof.
  intros H Hsafe. unfold resolvedDisplayOrder.
  replace (nullish (CreateInput.displayOrder body) 0) with 0
    by (destruct H as [-> | ->]; reflexivity).
  simpl. destruct (productImageStore.getByProductId _ s) as [|q qs]; simpl; [reflexivity|].
  pose proof (Math_max_In (displayOrder q) (map displayOrder qs)) as Hin.
  change (displayOrder q :: map displayOrder qs) with (map displayOrder (q :: qs)) in Hin.
  apply in_map_iff in Hin. destruct Hin as (q' & E & Hin).
  rewrite jsAdd_safe by (rewrite <- E; now apply Hsafe).
  split.
  - exists q'. split; [assumption|]. now rewrite E.
  - intros q0 Hin0.
    pose proof (Math_max_upper (displayOrder q) (map displayOrder qs) (displayOrder q0)) as U.
    assert (In (displayOrder q0) (displayOrder q :: map displayOrder qs)).
    { change (In (displayOrder q0) (map displayOrder (q :: qs))). now apply in_map. }
    specialize (U H0). lia.
Qed.

Lemma getById_created now body s :
  store_wf s ->
  productImageStore.getById (currentId s + 1)
    {| records :=
         (if truthyB (CreateInput.isPrimary body)
          then map (sweepRecord now (CreateInput.productId body) isPrimary) (records s)
          else records s) ++ [createdImage now body s];
       currentId := currentId s + 1 |}
  = Some (createdImage now body s).
Proof.
  intros [Hnd Hb _]. unfold productImageStore.getById. cbn [records].
  assert (Hfresh : ~ In (currentId s + 1) (map id (records s))).
  { intros H. apply in_map_iff in H. destruct H as (r & E & Hin). apply Hb in Hin. lia. }
  apply find_id_In; [| |reflexivity].
  - rewrite map_app. replace (map id (if truthyB (CreateInput.isPrimary body)
                                       then map (sweepRecord now (CreateInput.productId body)
                                                   isPrimary) (records s)
                                       else records s)) with (map id (records s))
      by (destruct (truthyB _); [now rewrite map_id_sweepRecord|reflexivity]).
    apply NoDup_app; [assumption| |].
    + repeat constructor. simpl. tauto.
    + intros x Hx [<-|[]]. contradiction.
  - apply in_app_iff. right. now left.
Qed.

(** C2, as amended: a valid create returns the record it stores under the
    new id.  When the display order is omitted or 0 and the display order
    of every existing record of the product is a safe integer (at most
    2^53 - 1 in magnitude), that record has the maximum display order of
    those records plus one, or 1 when the product has none; a non-zero
    display order is taken as supplied. *)
Theorem create_displayOrder now body s :
  store_wf s -> createSchema zUrl zCaption body = true ->
  exists r s',
    productImageCreate zUrl zCaption now body s = (inr r, s') /\
    productImageStore.getById (id r) s' = Some r /\
    (CreateInput.displayOrder body = None \/ CreateInput.displayOrder body = Some 0 ->
     (forall q,
        In q (productImageStore.getByProductId (CreateInput.productId body) s) ->
        isSafeInteger (displayOrder q) = true) ->
     isNextDisplayOrder
       (productImageStore.getByProductId (CreateInput.productId body) s)
       (displayOrder r)) /\
    (forall d, CreateInput.displayOrder body = Some d -> d <> 0 -> displayOrder r = d).
Proof.
  intros Hwf V. eexists. eexists. split; [now apply productImageCreate_ok|].
  split; [|split].
  - now apply getById_created.
  - apply resolvedDisplayOrder_next.
  - intros d Hd Hne. simpl. unfold resolvedDisplayOrder. rewrite Hd. simpl.
    now rewrite (proj2 (Z.eqb_neq _ _) Hne).
Qed.

Lemma In_map_sweepRecord now P cond rs x :
  In x (map (sweepRecord now P cond) rs) ->
  exists r, In r rs /\ x = sweepRecord now P cond r.
Proof. intros H. apply in_map_iff in H. destruct H as (r & <- & Hin). eauto. Qed.

(** C3: when product [P] has a primary record [Q], a successful create
    for [P] with [isPrimary = true] makes the new record the only primary
    record of [P]; [Q] is no longer primary and its [dateModified] is the
    timestamp of the operation. *)
Theorem create_primary_replaces now body s Q :
  store_wf s -> createSchema zUrl zCaption body = true ->
  CreateInput.isPrimary body = Some true ->
  In Q (records s) -> productId Q = CreateInput.productId body -> isPrimary Q = true ->
  exists r s',
    productImageCreate zUrl zCaption now body s = (inr r, s') /\
    productImageStore.getById (id r) s = None /\
    productImageStore.getById (id r) s' = Some r /\
    productId r = CreateInput.productId body /\ isPrimary r = true /\
    (forall x, In x (records s') ->
       productId x = CreateInput.productId body -> isPrimary x = true -> x = r) /\
    exists Q',
      productImageStore.getById (id Q) s' = Some Q' /\
      isPrimary Q' = false /\ dateModified Q' = now /\
      Q' = productImageStore.merge Q (unsetPrimary now).
Proof.
  intros Hwf V Hp HQ HQP HQI.
  pose proof (wf_nodup s Hwf) as Hnd. pose proof (wf_bound s Hwf) as Hb.
  exists (createdImage now body s). eexists.
  split; [now apply productImageCreate_ok|].
  unfold truthyB. rewrite Hp. simpl nullish. cbv iota.
  assert (Hfresh : ~ In (currentId s + 1) (map id (records s))).
  { intros H. apply in_map_iff in H. destruct H as (r & E & Hin). apply Hb in Hin. lia. }
  assert (Hnd' : NoDup (map id (map (sweepRecord now (CreateInput.productId body) isPrimary)
                                     (records s) ++ [createdImage now body s]))).
  { rewrite map_app, map_id_sweepRecord. simpl. apply NoDup_app; [assumption| |].
    - repeat constructor. simpl. tauto.
    - intros x Hx [<-|[]]. contradiction. }
  split; [|split; [|split; [|split; [|split]]]].
  - unfold productImageStore.getById. simpl. now apply find_id_None.
  - unfold productImageStore.getById. simpl.
    apply find_id_In; [assumption| |reflexivity].
    apply in_app_iff. right. now left.
  - reflexivity.
  - simpl. now rewrite Hp.
  - simpl. intros x Hin HxP HxI. apply in_app_iff in Hin. destruct Hin as [Hin|[<-|[]]]; [|reflexivity].
    exfalso. apply In_map_sweepRecord in Hin. destruct Hin as (r & Hr & ->).
    rewrite productId_sweepRecord in HxP. unfold sweepRecord in HxI.
    rewrite (proj2 (Z.eqb_eq _ _) HxP) in HxI. simpl in HxI.
    destruct (isPrimary r) eqn:I; simpl in HxI; congruence.
  - exists (productImageStore.merge Q (unsetPrimary now)).
    split; [|repeat split].
    unfold productImageStore.getById. simpl.
    apply find_id_In; [assumption| |reflexivity].
    apply in_app_iff. left. apply in_map_iff. exists Q. split; [|assumption].
    unfold sweepRecord. now rewrite HQP, Z.eqb_refl, HQI.
Qed.

Lemma Permutation_filter {A : Type} (p : A -> bool) (rs rs' : list A) :
  Permutation rs rs' -> Permutation (filter p rs) (filter p rs').
Proof.
  induction 1 as [|x l l' _ IH|x y l|l l' l'' _ IH1 _ IH2]; simpl.
  - constructor.
  - destruct (p x); [now constructor|assumption].
  - destruct (p x), (p y); try reflexivity. apply perm_swap.
  - now transitivity (filter p l').
Qed.



Lemma find_filter_other i j rs :
  j <> i ->
  find (fun r => id r =? j) (filter (fun r => negb (id r =? i)) rs)
  = find (fun r => id r =? j) rs.
Proof.
  intros Hne. induction rs as [|r rs IH]; simpl; [reflexivity|].
  destruct (Z.eqb_spec (id r) i) as [E|E]; simpl.
  - rewrite IH. destruct (Z.eqb_spec (id r) j); [congruence|reflexivity].
  - now rewrite IH.
Qed.

Lemma find_filter_self i rs :
  find (fun r => id r =? i) (filter (fun r => negb (id r =? i)) rs) = None.
Proof.
  induction rs as [|r rs IH]; simpl; [reflexivity|].
  destruct (id r =? i) eqn:E; simpl; [assumption|]. now rewrite E.
Qed.

Lemma exists_stored_valid i s :
  store_wf s -> productImageStore.exists_ i s = true -> paramsSchema i = true.
Proof.
  intros Hwf H. destruct (productImageStore.getById i s) as [e|] eqn:G.
  - eapply paramsSchema_stored; eassumption.
  - apply getById_exists in G. congruence.
Qed.

Lemma productImageGet_missing i s :
  paramsSchema i = true -> productImageStore.getById i s = None ->
  productImageGet i s = (inl notFound, s).
Proof.
  intros V G. unfold productImageGet. rewrite V.
  cbv beta iota delta [negb bind query]. now rewrite G.
Qed.

(** C5: deleting a stored id removes that record, so that a following
    get fails with NOT_FOUND, and leaves every other record as it was: no
    display order is renumbered and no record becomes primary, whatever
    the deleted record was. *)
Theorem delete_removes_only_target i s :
  store_wf s -> productImageStore.exists_ i s = true ->
  exists msg s',
    productImageDelete i s = (inr msg, s') /\
    productImageGet i s' = (inl notFound, s') /\
    productImageStore.exists_ i s' = false /\
    (forall j, j <> i -> productImageStore.getById j s' = productImageStore.getById j s) /\
    (forall r, In r (records s') <-> In r (records s) /\ id r <> i) /\
    (forall P, (primaryCount P s' <= primaryCount P s)%nat).
Proof.
  intros Hwf He. pose proof (exists_stored_valid i s Hwf He) as V.
  eexists. eexists. split; [now apply productImageDelete_ok|].
  assert (G : productImageStore.getById i
                {| records := filter (fun r => negb (id r =? i)) (records s);
                   currentId := currentId s |} = None).
  { unfold productImageStore.getById. simpl. apply find_filter_self. }
  split; [|split; [|split; [|split]]].
  - now apply productImageGet_missing.
  - now apply getById_exists.
  - intros j Hne. unfold productImageStore.getById. simpl. now apply find_filter_other.
  - intros r. simpl. rewrite filter_In. rewrite negb_true_iff, Z.eqb_neq. tauto.
  - intros P. unfold primaryCount. simpl. apply filter_filter_length.
Qed.

(** C6: get, update, delete, reorder and setPrimary, called with a
    well-formed id that the store does not hold, fail with NOT_FOUND and
    leave the store as it was. *)
Theorem missing_id_fails_not_found now i ubody rbody s :
  paramsSchema i = true ->
  updateSchema zUrl zCaption ubody = true ->
  reorderSchema rbody = true ->
  productImageStore.getById i s = None ->
  productImageGet i s = (inl notFound, s) /\
  productImageUpdate zUrl zCaption now i ubody s = (inl notFound, s) /\
  productImageDelete i s = (inl notFound, s) /\
  productImageReorder now i rbody s = (inl notFound, s) /\
  productImageSetPrimary now i s = (inl notFound, s).
Proof.
  intros V Vu Vr G.
  pose proof (proj2 (getById_exists i s) G) as E.
  unfold productImageGet, productImageUpdate, productImageDelete,
    productImageReorder, productImageSetPrimary.
  rewrite V, Vu, Vr. cbv beta iota delta [negb bind query throw].
  rewrite G, E. repeat split.
Qed.

(** The result of a successful update, and the record the store holds
    afterwards. *)
Lemma productImageUpdate_stored now i body s e :
  store_wf s -> updateSchema zUrl zCaption body = true ->
  productImageStore.getById i s = Some e ->
  exists s',
    productImageUpdate zUrl zCaption now i body s
    = (inr (Some (productImageStore.merge e (updatePatch now body e))), s') /\
    productImageStore.getById i s'
    = Some (productImageStore.merge e (updatePatch now body e)).
Proof.
  intros Hwf V He.
  pose proof (paramsSchema_stored i s e Hwf He) as Vp.
  destruct (getById_In _ _ _ He) as [Hin Hid].
  eexists. split; [now apply (productImageUpdate_ok _ _ _ _ _ _ e)|].
  unfold productImageStore.getById. simpl.
  rewrite find_id_map by (intros; now apply id_updateRecord).
  replace (find _ _) with (Some e).
  { simpl. unfold updateRecord. now rewrite (proj2 (Z.eqb_eq _ _) Hid). }
  symmetry. destruct (_ && _).
  - rewrite find_id_map by (intros; apply id_sweepRecord).
    unfold productImageStore.getById in He. rewrite He. simpl.
    now rewrite sweepRecord_self.
  - exact He.
Qed.

(** C7: a successful update of an existing record takes [url] from the
    input, keeps every optional field the input leaves unspecified,
    sets [dateModified] to the timestamp of the operation, and keeps
    [id], [productId] and [dateCreated]. *)
Theorem update_keeps_unspecified now i body s e :
  store_wf s -> updateSchema zUrl zCaption body = true ->
  productImageStore.getById i s = Some e ->
  exists u s',
    productImageUpdate zUrl zCaption now i body s = (inr (Some u), s') /\
    productImageStore.getById i s' = Some u /\
    url u = UpdateInput.url body /\
    (UpdateInput.caption body = None -> caption u = caption e) /\
    (UpdateInput.isPrimary body = None -> isPrimary u = isPrimary e) /\
    (UpdateInput.displayOrder body = None -> displayOrder u = displayOrder e) /\
    (UpdateInput.width body = None -> width u = width e) /\
    (UpdateInput.height body = None -> height u = height e) /\
    (UpdateInput.rotation body = None -> rotation u = rotation e) /\
    dateModified u = now /\
    id u = id e /\ productId u = productId e /\ dateCreated u = dateCreated e.
Proof.
  intros Hwf V He.
  destruct (productImageUpdate_stored now i body s e Hwf V He) as (s' & R & G).
  eexists. exists s'. split; [exact R|]. split; [exact G|].
  simpl. repeat split; try (intros ->; reflexivity).
Qed.

(** C10: a successful update whose caption is an explicit null keeps the
    caption the record had; the call has the result and the effect of the
    same call with the caption left out. *)
Theorem update_null_caption_keeps_caption now i body s e :
  store_wf s -> updateSchema zUrl zCaption body = true ->
  productImageStore.getById i s = Some e ->
  UpdateInput.caption body = Some None ->
  exists u s',
    productImageUpdate zUrl zCaption now i body s = (inr (Some u), s') /\
    productImageStore.getById i s' = Some u /\
    caption u = caption e /\
    productImageUpdate zUrl zCaption now i (withoutCaption body) s
    = (inr (Some u), s').
Proof.
  intros Hwf V He Hc.
  destruct (productImageUpdate_stored now i body s e Hwf V He) as (s' & R & G).
  eexists. exists s'. split; [exact R|]. split; [exact G|]. split.
  - simpl. now rewrite Hc.
  - assert (V' : updateSchema zUrl zCaption (withoutCaption body) = true).
    { unfold updateSchema in *. simpl. rewrite Hc in V. exact V. }
    pose proof (paramsSchema_stored i s e Hwf He) as Vp.
    rewrite (productImageUpdate_ok _ _ _ _ _ _ e) in R by assumption.
    rewrite (productImageUpdate_ok _ _ _ _ _ _ e) by assumption.
    assert (E : updatePatch now (withoutCaption body) e = updatePatch now body e).
    { unfold updatePatch. simpl. now rewrite Hc. }
    rewrite E. exact R.
Qed.

End Claims.

(** ** Concrete runs *)

Ltac prove_store_wf :=
  split; simpl;
  [ repeat (constructor; [simpl; intuition discriminate|]); constructor
  | intros ? ?; intuition (subst; simpl; lia)
  | lia ].

(** The scenario of the specification, section 8: two creates, the second
    one primary, then setPrimary on the first. *)
Example scenario_first_three :
  option_map (fun s => map (fun r => (id r, isPrimary r)) (records s))
    (run sampleUrlCheck sampleCaptionCheck (firstn 3 scenarioOps) productImageStore.init)
  = Some [(1, true); (2, false)].
Proof. reflexivity. Qed.

Example create_after_max_4 :
  option_map displayOrder
    (match productImageCreate sampleUrlCheck sampleCaptionCheck "t3"
             (sampleCreate 9 "https://x/c.jpg" None (Some 0)) galleryStore with
     | (inr r, _) => Some r
     | (inl _, _) => None
     end)
  = Some 5.
Proof. reflexivity. Qed.

(** The invariant along the scenario run, from the empty store. *)
Lemma primary_invariant_preserved_witness :
  store_wf productImageStore.init /\
  atMostOnePrimary 9 productImageStore.init /\
  exists s',
    run sampleUrlCheck sampleCaptionCheck scenarioOps productImageStore.init = Some s' /\
    atMostOnePrimary 9 s'.
Proof.
  assert (Hwf : store_wf productImageStore.init) by prove_store_wf.
  assert (HI : atMostOnePrimary 9 productImageStore.init)
    by (unfold atMostOnePrimary, primaryCount; simpl; lia).
  split; [exact Hwf|]. split; [exact HI|].
  eexists. split; [vm_compute; reflexivity|].
  apply (primary_invariant_preserved sampleUrlCheck sampleCaptionCheck 9 scenarioOps
           productImageStore.init _ Hwf HI).
  vm_compute. reflexivity.
Defined.

(** C2, counterexample: after a create with display order
    9007199254740991 and a create without display order, which gets
    9007199254740992, one more create without display order gets
    9007199254740992 again: the maximum, not the maximum plus one. *)
Lemma create_at_the_largest_display_order :
  run sampleUrlCheck sampleCaptionCheck saturatedOps productImageStore.init
  = Some saturatedStore /\
  createSchema sampleUrlCheck sampleCaptionCheck
    (sampleCreate 9 "https://x/c.jpg" None None) = true /\
  CreateInput.displayOrder (sampleCreate 9 "https://x/c.jpg" None None) = None /\
  map displayOrder (productImageStore.getByProductId 9 saturatedStore)
  = [9007199254740991; 9007199254740992] /\
  exists r s',
    productImageCreate sampleUrlCheck sampleCaptionCheck "t3"
      (sampleCreate 9 "https://x/c.jpg" None None) saturatedStore = (inr r, s') /\
    displayOrder r = 9007199254740992 /\
    ~ isNextDisplayOrder (productImageStore.getByProductId 9 saturatedStore)
        (displayOrder r).
Proof.
  split; [vm_compute; reflexivity|]. split; [reflexivity|]. split; [reflexivity|].
  split; [vm_compute; reflexivity|].
  eexists. eexists. split; [vm_compute; reflexivity|]. split; [reflexivity|].
  cbn [displayOrder]. intros H.
  assert (E : productImageStore.getByProductId 9 saturatedStore
              = [sampleImage 1 9 "https://x/a.jpg" None false 9007199254740991 "t1" "t1";
                 sampleImage 2 9 "https://x/b.jpg" None false 9007199254740992 "t2" "t2"])
    by (vm_compute; reflexivity).
  rewrite E in H. destruct H as [_ H].
  specialize (H _ (or_intror (or_introl eq_refl))). cbn [displayOrder sampleImage] in H. lia.
Qed.

(** A create without display order next to siblings with display orders 4
    and 2: the new record has display order 5. *)
Lemma create_displayOrder_witness :
  store_wf galleryStore /\
  createSchema sampleUrlCheck sampleCaptionCheck
    (sampleCreate 9 "https://x/c.jpg" None None) = true /\
  exists r s',
    productImageCreate sampleUrlCheck sampleCaptionCheck "t3"
      (sampleCreate 9 "https://x/c.jpg" None None) galleryStore = (inr r, s') /\
    productImageStore.getById (id r) s' = Some r /\
    isNextDisplayOrder (productImageStore.getByProductId 9 galleryStore)
      (displayOrder r) /\
    displayOrder r = 5.
Proof.
  assert (Hwf : store_wf galleryStore) by prove_store_wf.
  split; [exact Hwf|]. split; [reflexivity|].
  destruct (create_displayOrder sampleUrlCheck sampleCaptionCheck "t3"
              (sampleCreate 9 "https://x/c.jpg" None None) galleryStore Hwf eq_refl)
    as (r & s' & R & G & Hnext & _).
  exists r, s'. split; [exact R|]. split; [exact G|]. split.
  - apply Hnext; [left; reflexivity|].
    intros q Hq. vm_compute in Hq. destruct Hq as [<- |[<- |[]]]; reflexivity.
  - vm_compute in R. injection R as <- _. reflexivity.
Defined.

(** A primary create for product 9 while image 1 is primary. *)
Lemma create_primary_replaces_witness :
  exists r s',
    productImageCreate sampleUrlCheck sampleCaptionCheck "t3"
      (sampleCreate 9 "https://x/c.jpg" (Some true) None) galleryStore = (inr r, s') /\
    map (fun x => (id x, isPrimary x, dateModified x)) (records s')
    = [(1, false, "t3"); (2, false, "t2"); (3, true, "t3")] /\
    isPrimary r = true.
Proof.
  assert (Hwf : store_wf galleryStore) by prove_store_wf.
  destruct (create_primary_replaces sampleUrlCheck sampleCaptionCheck "t3"
              (sampleCreate 9 "https://x/c.jpg" (Some true) None) galleryStore
              (sampleImage 1 9 "https://x/a.jpg" (Some "front") true 4 "t1" "t1")
              Hwf eq_refl eq_refl (or_introl eq_refl) eq_refl eq_refl)
    as (r & s' & R & _ & _ & _ & HP & _).
  exists r, s'. split; [exact R|]. split; [|exact HP].
  vm_compute in R. injection R as _ <-. reflexivity.
Defined.



(** Deleting image 1, the primary image of product 9. *)
Lemma delete_removes_only_target_witness :
  store_wf galleryStore /\
  productImageStore.exists_ 1 galleryStore = true /\
  isPrimary (sampleImage 1 9 "https://x/a.jpg" (Some "front") true 4 "t1" "t1") = true /\
  exists msg s',
    productImageDelete 1 galleryStore = (inr msg, s') /\
    productImageGet 1 s' = (inl notFound, s') /\
    productImageStore.exists_ 1 s' = false /\
    (forall j, j <> 1 ->
       productImageStore.getById j s' = productImageStore.getById j galleryStore) /\
    (forall r, In r (records s') <-> In r (records galleryStore) /\ id r <> 1) /\
    (forall P, (primaryCount P s' <= primaryCount P galleryStore)%nat).
Proof.
  assert (Hwf : store_wf galleryStore) by prove_store_wf.
  split; [exact Hwf|]. split; [reflexivity|]. split; [reflexivity|].
  apply (delete_removes_only_target 1 galleryStore Hwf). reflexivity.
Defined.

(** Id 5 is well-formed and not stored. *)
Lemma missing_id_fails_not_found_witness :
  paramsSchema 5 = true /\
  updateSchema sampleUrlCheck sampleCaptionCheck
    (sampleUpdate "https://x/c.jpg" None None None) = true /\
  reorderSchema {| ReorderInput.newOrder := 3 |} = true /\
  productImageStore.getById 5 galleryStore = None /\
  productImageGet 5 galleryStore = (inl notFound, galleryStore) /\
  productImageUpdate sampleUrlCheck sampleCaptionCheck "t3" 5
    (sampleUpdate "https://x/c.jpg" None None None) galleryStore
  = (inl notFound, galleryStore) /\
  productImageDelete 5 galleryStore = (inl notFound, galleryStore) /\
  productImageReorder "t3" 5 {| ReorderInput.newOrder := 3 |} galleryStore
  = (inl notFound, galleryStore) /\
  productImageSetPrimary "t3" 5 galleryStore = (inl notFound, galleryStore).
Proof.
  split; [reflexivity|]. split; [reflexivity|]. split; [reflexivity|].
  split; [reflexivity|].
  apply (missing_id_fails_not_found sampleUrlCheck sampleCaptionCheck "t3" 5
           (sampleUpdate "https://x/c.jpg" None None None)
           {| ReorderInput.newOrder := 3 |} galleryStore);
    reflexivity.
Defined.

(** An update of image 1 that gives only the url. *)
Lemma update_keeps_unspecified_witness :
  exists u s',
    productImageUpdate sampleUrlCheck sampleCaptionCheck "t3" 1
      (sampleUpdate "https://x/c.jpg" None None None) galleryStore
    = (inr (Some u), s') /\
    u = sampleImage 1 9 "https://x/c.jpg" (Some "front") true 4 "t1" "t3".
Proof.
  assert (Hwf : store_wf galleryStore) by prove_store_wf.
  destruct (update_keeps_unspecified sampleUrlCheck sampleCaptionCheck "t3" 1
              (sampleUpdate "https://x/c.jpg" None None None) galleryStore
              (sampleImage 1 9 "https://x/a.jpg" (Some "front") true 4 "t1" "t1")
              Hwf eq_refl eq_refl)
    as (u & s' & R & _).
  exists u, s'. split; [exact R|].
  vm_compute in R. injection R as <- _. reflexivity.
Defined.

(** An update of image 1, captioned "front", with a null caption. *)
Lemma update_null_caption_keeps_caption_witness :
  exists u s',
    productImageUpdate sampleUrlCheck sampleCaptionCheck "t3" 1
      (sampleUpdate "https://x/a.jpg" (Some None) None None) galleryStore
    = (inr (Some u), s') /\
    caption u = Some "front".
Proof.
  assert (Hwf : store_wf galleryStore) by prove_store_wf.
  destruct (update_null_caption_keeps_caption sampleUrlCheck sampleCaptionCheck "t3" 1
              (sampleUpdate "https://x/a.jpg" (Some None) None None) galleryStore
              (sampleImage 1 9 "https://x/a.jpg" (Some "front") true 4 "t1" "t1")
              Hwf eq_refl eq_refl eq_refl)
    as (u & s' & R & _ & C & _).
  exists u, s'. split; [exact R|exact C].
Defined.

End EngineTheory.

(** * Properties of the gallery controller *)

Module GalleryTheory.
Import Gallery.

(** ** Navigation *)

Lemma imagesLength_nonneg st : 0 <= imagesLength st.
Proof. unfold imagesLength. lia. Qed.

Lemma imagesLength_nil st : images st = [] <-> imagesLength st = 0.
Proof.
  unfold imagesLength. destruct (images st); simpl; split; intros H;
    try reflexivity; try discriminate; lia.
Qed.

(** C8: on a list of length [N >= 1] with [currentIndex] in [0 .. N-1],
    goToNext moves to [(currentIndex + 1) mod N] and goToPrevious to
    [(currentIndex - 1 + N) mod N], each resetting the zoom level to 1.0
    and the rotation to 0; on an empty list both leave the state as it
    was. *)
Theorem navigation_wraps st :
  (1 <= imagesLength st -> indexInBounds st ->
   currentIndex (goToNext st) = (currentIndex st + 1) mod imagesLength st /\
   zoomLevel (goToNext st) = 1%Q /\ rotation (goToNext st) = 0 /\
   currentIndex (goToPrevious st)
   = (currentIndex st - 1 + imagesLength st) mod imagesLength st /\
   zoomLevel (goToPrevious st) = 1%Q /\ rotation (goToPrevious st) = 0) /\
  (images st = [] -> goToNext st = st /\ goToPrevious st = st).
Proof.
  split.
  - intros HN [H0 H1]. unfold goToNext, goToPrevious, jsRem.
    destruct (Z.eqb_spec (imagesLength st) 0) as [E|E]; [lia|]. simpl.
    rewrite !Z.rem_mod_nonneg by lia. repeat split.
  - intros H. apply imagesLength_nil in H. unfold goToNext, goToPrevious.
    now rewrite H.
Qed.

Example previous_wraps_to_last :
  currentIndex (runEvents [Refresh threeImages; GoToPrevious] initialState) = 2.
Proof. reflexivity. Qed.

Example next_wraps_to_first :
  currentIndex
    (runEvents [Refresh threeImages; GoToImage 2; GoToNext] initialState) = 0.
Proof. reflexivity. Qed.

(** C9, counterexample: a gallery of three images, moved to its last
    image and then refreshed with a list of one image, keeps index 2. *)
Lemma refresh_leaves_stale_index :
  let st := runEvents [Refresh threeImages; GoToPrevious; Refresh [galleryImage 1]]
              initialState in
  1 <= imagesLength st /\ ~ indexInBounds st /\ currentImage st = None.
Proof.
  cbv zeta. split; [|split].
  - vm_compute. discriminate.
  - unfold indexInBounds. vm_compute. intros [_ H]. now apply H.
  - reflexivity.
Qed.

Lemma goToNext_inBounds st :
  1 <= imagesLength st -> 0 <= currentIndex st -> indexInBounds (goToNext st).
Proof.
  intros HN H0. unfold indexInBounds, goToNext.
  destruct (Z.eqb_spec (imagesLength st) 0) as [E|E]; [lia|].
  unfold imagesLength in *. cbn [currentIndex images]. unfold jsRem.
  rewrite Z.rem_mod_nonneg by lia.
  pose proof (Z.mod_pos_bound (currentIndex st + 1) (Z.of_nat (List.length (images st)))).
  lia.
Qed.

Lemma goToPrevious_inBounds st :
  1 <= imagesLength st -> 1 - imagesLength st <= currentIndex st ->
  indexInBounds (goToPrevious st).
Proof.
  intros HN H0. unfold indexInBounds, goToPrevious.
  destruct (Z.eqb_spec (imagesLength st) 0) as [E|E]; [lia|].
  unfold imagesLength in *. cbn [currentIndex images]. unfold jsRem.
  rewrite Z.rem_mod_nonneg by lia.
  pose proof (Z.mod_pos_bound (currentIndex st - 1 + Z.of_nat (List.length (images st)))
                (Z.of_nat (List.length (images st)))).
  lia.
Qed.

(** C9, as amended: a refresh to a non-empty list keeps [currentIndex];
    started from an index that is not negative, the index is within the
    bounds of the new list exactly when it is at most [N - 1], and the
    next goToNext or goToPrevious brings it back within them. *)
Theorem index_bounds_restored_by_navigation data st :
  data <> [] -> 0 <= currentIndex st ->
  currentIndex (refresh data st) = currentIndex st /\
  (indexInBounds (refresh data st) <-> currentIndex st <= Z.of_nat (List.length data) - 1) /\
  indexInBounds (goToNext (refresh data st)) /\
  indexInBounds (goToPrevious (refresh data st)).
Proof.
  intros Hd H0.
  assert (HN : 1 <= imagesLength (refresh data st)).
  { unfold imagesLength. simpl. destruct data; [congruence|simpl; lia]. }
  split; [reflexivity|]. split; [|split].
  - unfold indexInBounds, imagesLength. cbn [refresh currentIndex images]. lia.
  - apply goToNext_inBounds; [assumption|exact H0].
  - apply goToPrevious_inBounds; [assumption|]. cbn [refresh currentIndex]. lia.
Qed.

(** Three images: next from the last one, previous from the first one,
    and next on the empty initial state. *)
Lemma navigation_wraps_witness :
  1 <= imagesLength (goToImage 2 (refresh threeImages initialState)) /\
  indexInBounds (goToImage 2 (refresh threeImages initialState)) /\
  currentIndex (goToNext (goToImage 2 (refresh threeImages initialState))) = 0 /\
  currentIndex (goToPrevious (refresh threeImages initialState)) = 2 /\
  goToNext initialState = initialState.
Proof.
  assert (HN : 1 <= imagesLength (goToImage 2 (refresh threeImages initialState)))
    by (vm_compute; discriminate).
  assert (HB : indexInBounds (goToImage 2 (refresh threeImages initialState)))
    by (unfold indexInBounds; vm_compute; split; discriminate).
  split; [exact HN|]. split; [exact HB|].
  destruct (navigation_wraps (goToImage 2 (refresh threeImages initialState)))
    as [Hnav _].
  destruct (Hnav HN HB) as (Hnext & _).
  destruct (navigation_wraps initialState) as [_ Hempty].
  destruct (Hempty eq_refl) as [Hn _].
  split; [rewrite Hnext; reflexivity|]. split; [reflexivity|exact Hn].
Defined.

(** The state of the counterexample, and goToNext from it. *)
Lemma index_bounds_restored_by_navigation_witness :
  [galleryImage 1] <> [] /\
  0 <= currentIndex (goToPrevious (refresh threeImages initialState)) /\
  currentIndex
    (refresh [galleryImage 1] (goToPrevious (refresh threeImages initialState))) = 2 /\
  indexInBounds
    (goToNext
       (refresh [galleryImage 1] (goToPrevious (refresh threeImages initialState)))).
Proof.
  assert (Hd : [galleryImage 1] <> []) by discriminate.
  assert (H0 : 0 <= currentIndex (goToPrevious (refresh threeImages initialState)))
    by (vm_compute; discriminate).
  split; [exact Hd|]. split; [exact H0|].
  destruct (index_bounds_restored_by_navigation [galleryImage 1]
              (goToPrevious (refresh threeImages initialState)) Hd H0)
    as (Hkeep & _ & Hnext & _).
  split; [rewrite Hkeep; reflexivity|exact Hnext].
Defined.

End GalleryTheory.

(** * Further properties of the ordering engine *)

Module EngineExtras.
Import Engine EngineTheory.

Section Further.

Variable zUrl : string -> bool.
Variable zCaption : string -> bool.
Implicit Types (rs : list ProductImageEntity) (r e : ProductImageEntity).

Lemma getById_map_other g i j s c :
  (forall r, id (g r) = id r) -> (forall r, id r <> i -> g r = r) -> j <> i ->
  productImageStore.getById j {| records := map g (records s); currentId := c |}
  = productImageStore.getById j s.
Proof.
  intros Hid Hg Hne. unfold productImageStore.getById. simpl.
  rewrite find_id_map by assumption.
  destruct (find (fun r => id r =? j) (records s)) as [r|] eqn:F; [|reflexivity].
  simpl. f_equal. apply Hg. apply find_id_Some in F. destruct F as [_ E]. congruence.
Qed.

Lemma updateRecord_other i data r : id r <> i -> updateRecord i data r = r.
Proof.
  intros H. unfold updateRecord. now rewrite (proj2 (Z.eqb_neq _ _) H).
Qed.

Lemma updateRecord_self i data r :
  id r = i -> updateRecord i data r = productImageStore.merge r data.
Proof.
  intros H. unfold updateRecord. now rewrite (proj2 (Z.eqb_eq _ _) H).
Qed.

(** X1: a successful reorder overwrites the display order of the record
    with the new order and sets its [dateModified]; every other field of
    it and every other record stay as they were. *)
Theorem reorder_overwrites_displayOrder now i body s e :
  store_wf s -> reorderSchema body = true ->
  productImageStore.getById i s = Some e ->
  exists msg s' u,
    productImageReorder now i body s = (inr msg, s') /\
    productImageStore.getById i s' = Some u /\
    displayOrder u = ReorderInput.newOrder body /\ dateModified u = now /\
    id u = id e /\ productId u = productId e /\ url u = url e /\
    caption u = caption e /\ isPrimary u = isPrimary e /\ width u = width e /\
    height u = height e /\ rotation u = rotation e /\
    dateCreated u = dateCreated e /\
    (forall j, j <> i ->
       productImageStore.getById j s' = productImageStore.getById j s).
Proof.
  intros Hwf V He.
  pose proof (paramsSchema_stored i s e Hwf He) as Vp.
  destruct (getById_In _ _ _ He) as [Hin Hid].
  eexists. eexists. exists (productImageStore.merge e (reorderPatch now (ReorderInput.newOrder body))).
  split; [now apply (productImageReorder_ok now i body s e)|].
  split.
  { unfold productImageStore.getById. simpl.
    rewrite find_id_map by (intros; now apply id_updateRecord).
    unfold productImageStore.getById in He. rewrite He. simpl.
    now rewrite updateRecord_self. }
  repeat split.
  intros j Hne. apply (getById_map_other _ i); [|intros; now apply updateRecord_other|assumption].
  intros; now apply id_updateRecord.
Qed.

Lemma filter_id_length_present i rs :
  NoDup (map id rs) -> In i (map id rs) ->
  List.length (filter (fun r => id r =? i) rs) = 1%nat.
Proof.
  induction rs as [|r rs IH]; simpl; intros Hnd Hin; [contradiction|].
  inversion Hnd as [|x l Hnotin Hnd']; subst.
  destruct (Z.eqb_spec (id r) i) as [E|E].
  - subst i. now rewrite filter_id_absent.
  - apply IH; [assumption|]. destruct Hin; [contradiction|assumption].
Qed.

(** What setPrimary does to one record. *)
Lemma setPrimary_record now i P r :
  productId (updateRecord i (setPrimaryPatch now) (sweepRecord now P (otherPrimary i) r))
  = productId r /\
  id (updateRecord i (setPrimaryPatch now) (sweepRecord now P (otherPrimary i) r))
  = id r /\
  (productId r = P ->
   isPrimary (updateRecord i (setPrimaryPatch now) (sweepRecord now P (otherPrimary i) r))
   = (id r =? i)).
Proof.
  unfold updateRecord. rewrite id_sweepRecord.
  destruct (Z.eqb_spec (id r) i) as [E|E].
  - rewrite sweepRecord_self by assumption. simpl. auto.
  - rewrite productId_sweepRecord, id_sweepRecord. repeat split.
    intros HP. unfold sweepRecord, otherPrimary.
    rewrite (proj2 (Z.eqb_eq _ _) HP), (proj2 (Z.eqb_neq _ _) E). simpl.
    now destruct (isPrimary r) eqn:I.
Qed.

(** X2: after a successful setPrimary the target is primary and is the
    only primary record of its product, however many the product had
    before. *)
Theorem setPrimary_makes_sole_primary now i s e :
  store_wf s -> productImageStore.getById i s = Some e ->
  exists msg s' u,
    productImageSetPrimary now i s = (inr msg, s') /\
    productImageStore.getById i s' = Some u /\
    isPrimary u = true /\ dateModified u = now /\ productId u = productId e /\
    (forall r, In r (records s') -> productId r = productId e ->
       (isPrimary r = true <-> id r = i)) /\
    primaryCount (productId e) s' = 1%nat.
Proof.
  intros Hwf He.
  pose proof (paramsSchema_stored i s e Hwf He) as Vp.
  pose proof (wf_nodup s Hwf) as Hnd.
  destruct (getById_In _ _ _ He) as [Hin Hid].
  eexists. eexists. exists (productImageStore.merge e (setPrimaryPatch now)).
  split; [now apply (productImageSetPrimary_ok now i s e)|].
  split; [|split; [reflexivity|split; [reflexivity|split; [reflexivity|split]]]].
  - unfold productImageStore.getById. simpl.
    rewrite find_id_map by (intros; now apply id_updateRecord).
    rewrite find_id_map by (intros; apply id_sweepRecord).
    unfold productImageStore.getById in He. rewrite He. simpl.
    rewrite sweepRecord_self by assumption. now rewrite updateRecord_self.
  - simpl. intros r' Hr' HP. rewrite map_map in Hr'.
    apply in_map_iff in Hr'. destruct Hr' as (r & <- & Hr).
    destruct (setPrimary_record now i (productId e) r) as (EP & EI & EB).
    rewrite EP in HP. rewrite (EB HP), EI. apply Z.eqb_eq.
  - unfold primaryCount. simpl. rewrite map_map, filter_map_length.
    rewrite <- (filter_id_length_present i (records s) Hnd)
      by (rewrite <- Hid; now apply in_map).
    f_equal. apply filter_ext_in. intros r Hr. unfold primaryOf.
    destruct (setPrimary_record now i (productId e) r) as (EP & EI & EB).
    rewrite EP. destruct (Z.eqb_spec (productId r) (productId e)) as [HP|HP].
    + simpl. now apply EB.
    + simpl. symmetry. apply Z.eqb_neq. intros E.
      apply HP. f_equal. now apply (getById_unique i s e r).
Qed.

(** X3: setPrimary on [i] leaves a record other than [i] as it was unless
    it is a primary record of the target's product; such a record only
    loses the flag and gets the operation's timestamp.  The order of the
    store is kept. *)
Theorem setPrimary_touches_target_and_old_primaries now i s e j r :
  store_wf s -> productImageStore.getById i s = Some e ->
  productImageStore.getById j s = Some r -> j <> i ->
  exists msg s' r',
    productImageSetPrimary now i s = (inr msg, s') /\
    productImageStore.getById j s' = Some r' /\
    (productId r <> productId e \/ isPrimary r = false -> r' = r) /\
    (productId r = productId e -> isPrimary r = true ->
     isPrimary r' = false /\ dateModified r' = now /\
     id r' = id r /\ productId r' = productId r /\ url r' = url r /\
     caption r' = caption r /\ displayOrder r' = displayOrder r /\
     width r' = width r /\ height r' = height r /\ rotation r' = rotation r /\
     dateCreated r' = dateCreated r) /\
    map id (productImageStore.getAll s') = map id (productImageStore.getAll s).
Proof.
  intros Hwf He Hr Hne.
  pose proof (paramsSchema_stored i s e Hwf He) as Vp.
  destruct (getById_In _ _ _ Hr) as [Hin Hid].
  eexists. eexists. exists (sweepRecord now (productId e) (otherPrimary i) r).
  split; [now apply (productImageSetPrimary_ok now i s e)|].
  split; [|split; [|split]].
  - unfold productImageStore.getById. simpl.
    rewrite find_id_map by (intros; now apply id_updateRecord).
    rewrite find_id_map by (intros; apply id_sweepRecord).
    unfold productImageStore.getById in Hr. rewrite Hr. simpl.
    rewrite updateRecord_other; [reflexivity|]. rewrite id_sweepRecord. congruence.
  - intros H. unfold sweepRecord.
    destruct (Z.eqb_spec (productId r) (productId e)) as [HP|HP]; [|reflexivity].
    destruct H as [H|H]; [contradiction|].
    unfold otherPrimary. rewrite H. now rewrite andb_false_r.
  - intros HP HI. unfold sweepRecord, otherPrimary.
    rewrite (proj2 (Z.eqb_eq _ _) HP), HI.
    rewrite (proj2 (Z.eqb_neq (id r) i)) by congruence.
    simpl. repeat split.
  - unfold productImageStore.getAll. cbn [records].
    rewrite !inRetrievalOrder_map;
      try (intros; (apply id_sweepRecord || apply displayOrder_sweepRecord));
      try (intros x; unfold updateRecord; now destruct (id x =? i)).
    rewrite map_id_updateRecord by reflexivity. apply map_id_sweepRecord.
Qed.

Lemma find_id_app i rs rs' :
  find (fun r => id r =? i) (rs ++ rs')
  = match find (fun r => id r =? i) rs with
    | Some r => Some r
    | None => find (fun r => id r =? i) rs'
    end.
Proof.
  induction rs as [|r rs IH]; simpl; [reflexivity|].
  now destruct (id r =? i).
Qed.

Lemma created_id_fresh now body s :
  store_wf s -> ~ In (id (createdImage now body s)) (map id (records s)).
Proof.
  intros Hwf H. simpl in H. apply in_map_iff in H. destruct H as (r & E & Hin).
  apply (wf_bound s Hwf) in Hin. lia.
Qed.

(** The store after a successful create, looked up by id. *)
Lemma getById_after_create now body s j :
  store_wf s -> createSchema zUrl zCaption body = true ->
  exists s',
    productImageCreate zUrl zCaption now body s = (inr (createdImage now body s), s') /\
    productImageStore.getById j s'
    = (if j =? currentId s + 1 then Some (createdImage now body s)
       else option_map
              (if truthyB (CreateInput.isPrimary body)
               then sweepRecord now (CreateInput.productId body) isPrimary
               else fun r => r)
              (productImageStore.getById j s)).
Proof.
  intros Hwf V. eexists. split; [now apply productImageCreate_ok|].
  pose proof (created_id_fresh now body s Hwf) as Hfresh. simpl in Hfresh.
  unfold productImageStore.getById. simpl.
  rewrite find_id_app. simpl.
  destruct (Z.eqb_spec j (currentId s + 1)) as [E|E].
  - subst j. rewrite Z.eqb_refl.
    replace (find _ _) with (@None ProductImageEntity); [reflexivity|].
    symmetry. apply find_id_None.
    destruct (truthyB _); [now rewrite map_id_sweepRecord|assumption].
  - rewrite (proj2 (Z.eqb_neq (currentId s + 1) j)) by congruence.
    destruct (truthyB _).
    + rewrite find_id_map by (intros; apply id_sweepRecord).
      now destruct (find _ (records s)).
    + now destruct (find _ (records s)).
Qed.

(** X4: a successful create stores the record it returns under an id the
    store did not hold; a following get of that id returns the record.
    Fields the input gives are taken as given, the
    others get their defaults (caption null, not primary, 1200 x 800,
    rotation 0), and both timestamps are the operation's. *)
Theorem create_stores_record_with_defaults now body s :
  store_wf s -> createSchema zUrl zCaption body = true ->
  exists r s',
    productImageCreate zUrl zCaption now body s = (inr r, s') /\
    productImageStore.getById (id r) s = None /\
    productImageGet (id r) s' = (inr r, s') /\
    productId r = CreateInput.productId body /\ url r = CreateInput.url body /\
    dateCreated r = now /\ dateModified r = now /\
    (CreateInput.caption body = None \/ CreateInput.caption body = Some None ->
     caption r = None) /\
    (CreateInput.isPrimary body = None -> isPrimary r = false) /\
    (CreateInput.width body = None -> width r = 1200) /\
    (CreateInput.height body = None -> height r = 800) /\
    (CreateInput.rotation body = None -> rotation r = 0) /\
    (forall c, CreateInput.caption body = Some (Some c) -> caption r = Some c) /\
    (forall b, CreateInput.isPrimary body = Some b -> isPrimary r = b) /\
    (forall w, CreateInput.width body = Some w -> width r = w) /\
    (forall h, CreateInput.height body = Some h -> height r = h) /\
    (forall a, CreateInput.rotation body = Some a -> rotation r = a).
Proof.
  intros Hwf V.
  destruct (getById_after_create now body s (currentId s + 1) Hwf V) as (s' & R & G).
  exists (createdImage now body s), s'. split; [exact R|].
  rewrite Z.eqb_refl in G.
  split; [|split].
  - apply find_id_None. now apply created_id_fresh.
  - change (id (createdImage now body s)) with (currentId s + 1).
    unfold productImageGet.
    assert (Vp : paramsSchema (currentId s + 1) = true).
    { unfold paramsSchema, zPositive. apply Z.ltb_lt.
      pose proof (wf_counter s Hwf). lia. }
    rewrite Vp. cbv beta iota delta [negb bind query]. now rewrite G.
  - simpl. repeat split; try (intros ? ->; reflexivity); try (intros ->; reflexivity).
    intros [-> | ->]; reflexivity.
Qed.

(** X5: a create leaves every stored record as it was, except the primary
    records of the same product when the new record is created primary. *)
Theorem create_leaves_other_records now body s j x :
  store_wf s -> createSchema zUrl zCaption body = true ->
  productImageStore.getById j s = Some x ->
  CreateInput.isPrimary body = None \/ CreateInput.isPrimary body = Some false \/
  productId x <> CreateInput.productId body \/ isPrimary x = false ->
  exists r s',
    productImageCreate zUrl zCaption now body s = (inr r, s') /\
    productImageStore.getById j s' = Some x.
Proof.
  intros Hwf V Hx H.
  destruct (getById_after_create now body s j Hwf V) as (s' & R & G).
  exists (createdImage now body s), s'. split; [exact R|].
  rewrite G, Hx. destruct (getById_In _ _ _ Hx) as [Hin Hid].
  pose proof (wf_bound s Hwf x Hin) as Hb.
  rewrite (proj2 (Z.eqb_neq j (currentId s + 1))) by lia. simpl. f_equal.
  destruct (truthyB (CreateInput.isPrimary body)) eqn:T; [|reflexivity].
  unfold sweepRecord.
  destruct H as [H|[H|[H|H]]].
  - rewrite H in T. discriminate.
  - rewrite H in T. discriminate.
  - now rewrite (proj2 (Z.eqb_neq _ _) H).
  - rewrite H. now rewrite andb_false_r.
Qed.


(** X6: an id that is not positive is rejected with VALIDATION_ERROR
    "Invalid ID" by get, update, delete, reorder and setPrimary, whatever
    the body and the store, and the store is left as it was. *)
Theorem invalid_id_rejected_first now i ubody rbody s :
  i <= 0 ->
  productImageGet i s = (inl (validationError "Invalid ID"), s) /\
  productImageUpdate zUrl zCaption now i ubody s = (inl (validationError "Invalid ID"), s) /\
  productImageDelete i s = (inl (validationError "Invalid ID"), s) /\
  productImageReorder now i rbody s = (inl (validationError "Invalid ID"), s) /\
  productImageSetPrimary now i s = (inl (validationError "Invalid ID"), s).
Proof.
  intros H.
  assert (V : paramsSchema i = false).
  { unfold paramsSchema, zPositive. apply Z.ltb_ge. lia. }
  unfold productImageGet, productImageUpdate, productImageDelete,
    productImageReorder, productImageSetPrimary.
  rewrite V. repeat split.
Qed.

(** X7: update and reorder validate the body before they look the id up:
    with a well-formed id and an invalid body they fail with
    VALIDATION_ERROR "Validation failed", stored id or not. *)
Theorem invalid_body_rejected_before_lookup now i ubody rbody s :
  0 < i ->
  updateSchema zUrl zCaption ubody = false -> reorderSchema rbody = false ->
  productImageUpdate zUrl zCaption now i ubody s
  = (inl (validationError "Validation failed"), s) /\
  productImageReorder now i rbody s = (inl (validationError "Validation failed"), s).
Proof.
  intros H Vu Vr.
  assert (V : paramsSchema i = true).
  { unfold paramsSchema, zPositive. apply Z.ltb_lt. lia. }
  unfold productImageUpdate, productImageReorder.
  rewrite V, Vu, Vr. split; reflexivity.
Qed.

Lemma neverThrows_ret {A : Type} (a : A) : neverThrows (ret a).
Proof. intros s. now exists a, s. Qed.

Lemma neverThrows_query {A : Type} (f : ProductImageStore -> A) :
  neverThrows (query f).
Proof. intros s. now exists (f s), s. Qed.

Lemma neverThrows_call {A : Type} (f : ProductImageStore -> A * ProductImageStore) :
  neverThrows (call f).
Proof. intros s. unfold call. destruct (f s) as [a s']. now exists a, s'. Qed.

Lemma neverThrows_bind {A B : Type} (m : M A) (k : A -> M B) :
  neverThrows m -> (forall a, neverThrows (k a)) -> neverThrows (bind m k).
Proof.
  intros Hm Hk s. destruct (Hm s) as (a & s1 & E). unfold bind. rewrite E.
  apply Hk.
Qed.

Lemma neverThrows_when c (body : M unit) :
  neverThrows body -> neverThrows (when c body).
Proof. intros H. unfold when. destruct c; [assumption|apply neverThrows_ret]. Qed.

Lemma neverThrows_forEach {A : Type} (f : A -> M unit) (xs : list A) :
  (forall x, neverThrows (f x)) -> neverThrows (forEach f xs).
Proof.
  intros H. induction xs as [|x xs IH]; simpl.
  - apply neverThrows_ret.
  - apply neverThrows_bind; [apply H|intros _; exact IH].
Qed.

Lemma neverThrows_inl {A : Type} (m : M A) s x s' :
  neverThrows m -> m s = (inl x, s') -> False.
Proof. intros H E. destruct (H s) as (a & s1 & E'). congruence. Qed.

Ltac never_throws :=
  repeat first
    [ apply neverThrows_ret | apply neverThrows_query | apply neverThrows_call
    | apply neverThrows_when | apply neverThrows_forEach; intros ?
    | apply neverThrows_bind; [|intros ?]
    | match goal with |- neverThrows (ignore _) => unfold ignore end
    | match goal with |- neverThrows (if ?c then _ else _) => destruct c end
    | match goal with |- neverThrows (let _ := _ in _) => cbv zeta end ].

(** X8: an operation that throws has written nothing, and throws one of
    the three errors of the service; list never throws. *)
Theorem failures_leave_store_untouched now i cbody ubody rbody p s :
  failsCleanly (productImageCreate zUrl zCaption now cbody) s /\
  failsCleanly (productImageGet i) s /\
  failsCleanly (productImageUpdate zUrl zCaption now i ubody) s /\
  failsCleanly (productImageDelete i) s /\
  failsCleanly (productImageReorder now i rbody) s /\
  failsCleanly (productImageSetPrimary now i) s /\
  failsCleanly (productImageList p) s.
Proof.
  unfold failsCleanly. repeat match goal with |- _ /\ _ => split end; intros x s'.
  - unfold productImageCreate.
    destruct (createSchema zUrl zCaption cbody); cbn [negb].
    + intros H. exfalso. revert H. apply neverThrows_inl. never_throws.
    + intros [= <- <-]. auto.
  - unfold productImageGet.
    destruct (paramsSchema i); cbn [negb]; [|intros [= <- <-]; auto].
    unfold bind, query. cbv beta iota.
    destruct (productImageStore.getById i s); [discriminate|].
    intros [= <- <-]. auto.
  - unfold productImageUpdate.
    destruct (paramsSchema i); cbn [negb]; [|intros [= <- <-]; auto].
    destruct (updateSchema zUrl zCaption ubody); cbn [negb];
      [|intros [= <- <-]; auto].
    unfold bind at 1. unfold query at 1. cbv beta iota.
    destruct (productImageStore.getById i s) as [e|]; [|intros [= <- <-]; auto].
    intros H. exfalso. revert H. apply neverThrows_inl. never_throws.
  - unfold productImageDelete.
    destruct (paramsSchema i); cbn [negb]; [|intros [= <- <-]; auto].
    unfold bind at 1. unfold query at 1. cbv beta iota.
    destruct (productImageStore.exists_ i s); cbn [negb];
      [|intros [= <- <-]; auto].
    intros H. exfalso. revert H. apply neverThrows_inl. never_throws.
  - unfold productImageReorder.
    destruct (paramsSchema i); cbn [negb]; [|intros [= <- <-]; auto].
    destruct (reorderSchema rbody); cbn [negb]; [|intros [= <- <-]; auto].
    unfold bind at 1. unfold query at 1. cbv beta iota.
    destruct (productImageStore.getById i s) as [e|]; [|intros [= <- <-]; auto].
    intros H. exfalso. revert H. apply neverThrows_inl. never_throws.
  - unfold productImageSetPrimary.
    destruct (paramsSchema i); cbn [negb]; [|intros [= <- <-]; auto].
    unfold bind at 1. unfold query at 1. cbv beta iota.
    destruct (productImageStore.getById i s) as [e|]; [|intros [= <- <-]; auto].
    intros H. exfalso. revert H. apply neverThrows_inl. never_throws.
  - intros H. exfalso. revert H. apply neverThrows_inl.
    unfold productImageList. never_throws.
Qed.

(** X9: a successful update gives every optional field the input
    supplies the supplied value, a display order of 0 included, and a
    following get returns the updated record. *)
Theorem update_applies_supplied_fields now i body s e :
  store_wf s -> updateSchema zUrl zCaption body = true ->
  productImageStore.getById i s = Some e ->
  exists u s',
    productImageUpdate zUrl zCaption now i body s = (inr (Some u), s') /\
    productImageGet i s' = (inr u, s') /\
    (forall c, UpdateInput.caption body = Some (Some c) -> caption u = Some c) /\
    (forall b, UpdateInput.isPrimary body = Some b -> isPrimary u = b) /\
    (forall d, UpdateInput.displayOrder body = Some d -> displayOrder u = d) /\
    (forall w, UpdateInput.width body = Some w -> width u = w) /\
    (forall h, UpdateInput.height body = Some h -> height u = h) /\
    (forall a, UpdateInput.rotation body = Some a -> rotation u = a).
Proof.
  intros Hwf V He.
  destruct (productImageUpdate_stored zUrl zCaption now i body s e Hwf V He) as (s' & R & G).
  eexists. exists s'. split; [exact R|]. split.
  - unfold productImageGet. rewrite (paramsSchema_stored i s e Hwf He).
    cbv beta iota delta [negb bind query]. now rewrite G.
  - simpl. repeat split; intros ? ->; reflexivity.
Qed.

Lemma primaryCount_pos P s u :
  In u (records s) -> primaryOf P u = true -> (1 <= primaryCount P s)%nat.
Proof.
  intros Hin Hp. unfold primaryCount.
  assert (H : In u (filter (primaryOf P) (records s))) by (apply filter_In; auto).
  destruct (filter (primaryOf P) (records s)); [contradiction|simpl; lia].
Qed.

(** X10: where a product has at most one primary record, a successful
    update with [isPrimary = true] leaves it with exactly one, the updated
    record. *)
Theorem update_to_primary_gives_exactly_one now i body s e :
  store_wf s -> atMostOnePrimary (productId e) s ->
  updateSchema zUrl zCaption body = true ->
  productImageStore.getById i s = Some e ->
  UpdateInput.isPrimary body = Some true ->
  exists u s',
    productImageUpdate zUrl zCaption now i body s = (inr (Some u), s') /\
    productImageStore.getById i s' = Some u /\ isPrimary u = true /\
    primaryCount (productId e) s' = 1%nat.
Proof.
  intros Hwf HI V He Hp.
  destruct (productImageUpdate_stored zUrl zCaption now i body s e Hwf V He) as (s' & R & G).
  eexists. exists s'. split; [exact R|]. split; [exact G|]. split.
  - simpl. now rewrite Hp.
  - assert (E : exec zUrl zCaption (OpUpdate now i body) s = Some s')
      by (simpl; now rewrite R).
    pose proof (exec_atMostOnePrimary zUrl zCaption (productId e) _ s s' Hwf HI E) as Hle.
    destruct (getById_In _ _ _ G) as [Hin _].
    pose proof (primaryCount_pos (productId e) s' _ Hin) as Hge.
    unfold atMostOnePrimary in Hle.
    assert ((1 <= primaryCount (productId e) s')%nat); [|lia].
    apply Hge. unfold primaryOf. simpl. now rewrite Z.eqb_refl, Hp.
Qed.

(** Unsetting the flag of a primary record takes one primary away. *)
Lemma primaryCount_unset P i data rs e :
  NoDup (map id rs) -> In e rs -> id e = i -> primaryOf P e = true ->
  primaryOf P (productImageStore.merge e data) = false ->
  S (List.length (filter (primaryOf P) (map (updateRecord i data) rs)))
  = List.length (filter (primaryOf P) rs).
Proof.
  intros Hnd Hin Hid Hp Hq. induction rs as [|r rs IH]; [contradiction|].
  simpl in Hnd. inversion Hnd as [|x l Hnotin Hnd']; subst.
  simpl. unfold updateRecord at 1.
  destruct (Z.eqb_spec (id r) (id e)) as [E|E].
  - assert (r = e).
    { destruct Hin as [Hin|Hin]; [assumption|].
      exfalso. apply Hnotin. rewrite E. now apply in_map. }
    subst r. rewrite Hq, Hp. simpl.
    now rewrite map_updateRecord_absent.
  - destruct Hin as [Hin|Hin]; [congruence|].
    destruct (primaryOf P r); simpl; rewrite <- IH; auto.
Qed.

(** X11: where a product has at most one primary record, a successful
    update with [isPrimary = false] of that record leaves the product
    without a primary record. *)
Theorem update_unsetting_primary_leaves_none now i body s e :
  store_wf s -> atMostOnePrimary (productId e) s ->
  updateSchema zUrl zCaption body = true ->
  productImageStore.getById i s = Some e -> isPrimary e = true ->
  UpdateInput.isPrimary body = Some false ->
  exists u s',
    productImageUpdate zUrl zCaption now i body s = (inr (Some u), s') /\
    primaryCount (productId e) s' = 0%nat.
Proof.
  intros Hwf HI V He Hprim Hp.
  pose proof (paramsSchema_stored i s e Hwf He) as Vp.
  destruct (getById_In _ _ _ He) as [Hin Hid].
  eexists. eexists. split; [now apply (productImageUpdate_ok _ _ _ _ _ _ e)|].
  unfold truthyB. rewrite Hp. simpl andb. cbv iota.
  unfold primaryCount. simpl.
  pose proof (primaryCount_unset (productId e) i (updatePatch now body e) (records s) e
                (wf_nodup s Hwf) Hin Hid) as H.
  unfold atMostOnePrimary, primaryCount in HI.
  assert (S (List.length (filter (primaryOf (productId e))
                            (map (updateRecord i (updatePatch now body e)) (records s))))
          = List.length (filter (primaryOf (productId e)) (records s))); [|lia].
  apply H.
  - unfold primaryOf. now rewrite Z.eqb_refl, Hprim.
  - unfold primaryOf. simpl. rewrite Hp. apply andb_false_r.
Qed.

(** X12: list never fails and never writes; with the product id omitted
    or 0 it returns every record of the store. *)
Theorem list_without_filter_returns_all p s :
  exists l,
    productImageList p s = (inr l, s) /\
    (p = None \/ p = Some 0 -> l = map toListResponse (productImageStore.getAll s)).
Proof.
  unfold productImageList, bind, query, ret, productImageStore.getAll.
  eexists. split; [reflexivity|]. intros [-> | ->]; reflexivity.
Qed.

Lemma validRecord_sweepRecord now P cond r :
  validRecord r -> validRecord (sweepRecord now P cond r).
Proof.
  unfold sweepRecord. destruct ((productId r =? P) && cond r); [|tauto].
  unfold validRecord. simpl. tauto.
Qed.

Lemma zOptional_Some {A : Type} (check : A -> bool) a v :
  zOptional check a = true -> a = Some v -> check v = true.
Proof. intros H ->. exact H. Qed.

Lemma resolvedDisplayOrder_nonneg body s :
  zOptional zMin0 (CreateInput.displayOrder body) = true ->
  Forall validRecord (records s) ->
  0 <= resolvedDisplayOrder body s.
Proof.
  intros V Hall. unfold resolvedDisplayOrder.
  destruct (Z.eqb_spec (nullish (CreateInput.displayOrder body) 0) 0) as [E|E].
  - destruct (productImageStore.getByProductId _ s) as [|q qs] eqn:G; simpl; [lia|].
    pose proof (Math_max_upper (displayOrder q) (map displayOrder qs) (displayOrder q)
                  (or_introl eq_refl)) as U.
    assert (Hq : In q (records s)).
    { assert (In q (q :: qs)) by now left. rewrite <- G in H.
      now apply In_getByProductId in H. }
    rewrite Forall_forall in Hall. destruct (Hall q Hq) as (_ & H0 & _).
    apply roundDouble_nonneg. lia.
  - destruct (CreateInput.displayOrder body) as [d|]; simpl in *; [|lia].
    unfold zMin0 in V. apply Z.leb_le in V. lia.
Qed.

Lemma validRecord_created now body s :
  createSchema zUrl zCaption body = true ->
  Forall validRecord (records s) ->
  validRecord (createdImage now body s).
Proof.
  intros V Hall. unfold createSchema in V.
  repeat (apply andb_prop in V; destruct V as [V ?]).
  unfold validRecord. simpl. repeat split.
  - unfold zPositive in V. now apply Z.ltb_lt.
  - now apply resolvedDisplayOrder_nonneg.
  - destruct (CreateInput.width body) as [w|]; simpl in *; [|reflexivity].
    unfold zPositive in *. now apply Z.ltb_lt.
  - destruct (CreateInput.height body) as [h|]; simpl in *; [|reflexivity].
    unfold zPositive in *. now apply Z.ltb_lt.
  - destruct (CreateInput.rotation body) as [a|]; simpl in *; [assumption|reflexivity].
Qed.

Lemma validRecord_updated now body e :
  updateSchema zUrl zCaption body = true -> validRecord e ->
  validRecord (productImageStore.merge e (updatePatch now body e)).
Proof.
  intros V (Hp & Hd & Hw & Hh & Hr). unfold updateSchema in V.
  repeat (apply andb_prop in V; destruct V as [V ?]).
  unfold validRecord. simpl. repeat split.
  - assumption.
  - destruct (UpdateInput.displayOrder body) as [d|]; simpl in *; [|assumption].
    unfold zMin0 in *. now apply Z.leb_le.
  - destruct (UpdateInput.width body) as [w|]; simpl in *; [|assumption].
    unfold zPositive in *. now apply Z.ltb_lt.
  - destruct (UpdateInput.height body) as [h|]; simpl in *; [|assumption].
    unfold zPositive in *. now apply Z.ltb_lt.
  - destruct (UpdateInput.rotation body) as [a|]; simpl in *; assumption.
Qed.

Lemma Forall_map_valid (g : ProductImageEntity -> ProductImageEntity) rs :
  (forall r, In r rs -> validRecord r -> validRecord (g r)) ->
  Forall validRecord rs -> Forall validRecord (map g rs).
Proof.
  intros Hg Hall. rewrite Forall_forall in *. intros x Hx.
  apply in_map_iff in Hx. destruct Hx as (r & <- & Hr). auto.
Qed.

Lemma exec_validRecord op s s' :
  store_wf s -> Forall validRecord (records s) ->
  exec zUrl zCaption op s = Some s' -> Forall validRecord (records s').
Proof.
  intros Hwf Hall.
  destruct op as [now body|now i body|now i|now i body|i]; simpl.
  - destruct (productImageCreate _ _ _ _ _) as [[err|x] s1] eqn:R; [discriminate|].
    intros [= <-]. pose proof (productImageCreate_inr _ _ _ _ _ _ _ R) as V.
    rewrite productImageCreate_ok in R by assumption. injection R as _ <-.
    simpl. apply Forall_app. split.
    + destruct (truthyB _); [|assumption].
      apply Forall_map_valid; [|assumption].
      intros r _. apply validRecord_sweepRecord.
    + constructor; [|constructor]. now apply validRecord_created.
  - destruct (productImageUpdate _ _ _ _ _ _) as [[err|x] s1] eqn:R; [discriminate|].
    intros [= <-].
    destruct (productImageUpdate_inr _ _ _ _ _ _ _ _ R) as (V & V' & e & He).
    rewrite (productImageUpdate_ok _ _ _ _ _ _ e) in R by assumption.
    injection R as _ <-. simpl.
    destruct (getById_In _ _ _ He) as [Hin Hid].
    assert (Hsw : Forall validRecord
                    (if truthyB (UpdateInput.isPrimary body) && negb (isPrimary e)
                     then map (sweepRecord now (productId e) (otherPrimary i)) (records s)
                     else records s)).
    { destruct (_ && _); [|assumption].
      apply Forall_map_valid; [|assumption].
      intros r _. apply validRecord_sweepRecord. }
    apply Forall_map_valid; [|assumption].
    intros r Hr Hv. unfold updateRecord.
    destruct (Z.eqb_spec (id r) i) as [E|E]; [|assumption].
    assert (Hre : r = e).
    { destruct (truthyB (UpdateInput.isPrimary body) && negb (isPrimary e)).
      - apply in_map_iff in Hr. destruct Hr as (r0 & <- & Hr0).
        rewrite id_sweepRecord in E.
        rewrite sweepRecord_self by assumption.
        now apply (getById_unique i s e r0).
      - now apply (getById_unique i s e r). }
    subst r. now apply validRecord_updated.
  - destruct (productImageSetPrimary _ _ _) as [[err|x] s1] eqn:R; [discriminate|].
    intros [= <-]. destruct (productImageSetPrimary_inr _ _ _ _ _ R) as (V & e & He).
    rewrite (productImageSetPrimary_ok _ _ _ e) in R by assumption.
    injection R as _ <-. simpl.
    apply Forall_map_valid.
    + intros r _ Hv. unfold updateRecord. destruct (id r =? i); [|assumption].
      unfold validRecord in *. simpl. tauto.
    + apply Forall_map_valid; [|assumption].
      intros r _. apply validRecord_sweepRecord.
  - destruct (productImageReorder _ _ _ _) as [[err|x] s1] eqn:R; [discriminate|].
    intros [= <-]. destruct (productImageReorder_inr _ _ _ _ _ _ R) as (V & V' & e & He).
    rewrite (productImageReorder_ok _ _ _ _ e) in R by assumption.
    injection R as _ <-. simpl.
    apply Forall_map_valid; [|assumption].
    intros r _ Hv. unfold updateRecord. destruct (id r =? i); [|assumption].
    unfold validRecord in *. simpl. unfold reorderSchema, zMin0 in V'.
    apply Z.leb_le in V'. tauto.
  - destruct (productImageDelete _ _) as [[err|x] s1] eqn:R; [discriminate|].
    intros [= <-]. destruct (productImageDelete_inr _ _ _ _ R) as (V & He).
    rewrite productImageDelete_ok in R by assumption. injection R as _ <-.
    simpl. rewrite Forall_forall in *. intros r Hr. apply filter_In in Hr.
    now apply Hall.
Qed.

(** X13: successful operations keep the numeric fields of every record
    within the ranges of the schemas: product id, width and height
    positive, display order not negative, rotation one of the four
    angles. *)
Theorem field_ranges_preserved ops : forall s s',
  store_wf s -> Forall validRecord (records s) ->
  run zUrl zCaption ops s = Some s' ->
  Forall validRecord (records s').
Proof.
  induction ops as [|op ops IH]; simpl; intros s s' Hwf Hall R.
  - now injection R as <-.
  - destruct (exec zUrl zCaption op s) as [s1|] eqn:E; [|discriminate].
    apply (IH s1); [eapply exec_store_wf|eapply exec_validRecord|]; eassumption.
Qed.


Lemma sameIdentity_refl r : sameIdentity r r.
Proof. unfold sameIdentity. auto. Qed.

Lemma sameIdentity_sweepRecord now P cond r :
  sameIdentity (sweepRecord now P cond r) r.
Proof.
  unfold sweepRecord. destruct ((productId r =? P) && cond r);
    unfold sameIdentity; simpl; auto.
Qed.

Lemma sameIdentity_updateRecord i data r :
  Partial.id data = None -> Partial.productId data = None ->
  Partial.dateCreated data = None ->
  sameIdentity (updateRecord i data r) r.
Proof.
  intros H1 H2 H3. unfold updateRecord. destruct (id r =? i);
    unfold sameIdentity; simpl; rewrite ?H1, ?H2, ?H3; auto.
Qed.

Lemma sameIdentity_trans a b c :
  sameIdentity a b -> sameIdentity b c -> sameIdentity a c.
Proof. unfold sameIdentity. intuition congruence. Qed.

Lemma getById_map_back (g : ProductImageEntity -> ProductImageEntity) j rs e1 :
  (forall r, id (g r) = id r) -> (forall r, sameIdentity (g r) r) ->
  find (fun r => id r =? j) (map g rs) = Some e1 ->
  exists e, find (fun r => id r =? j) rs = Some e /\ sameIdentity e1 e.
Proof.
  intros Hid Hg F. rewrite find_id_map in F by assumption.
  destruct (find (fun r => id r =? j) rs) as [e|]; [|discriminate].
  injection F as <-. eauto.
Qed.

Lemma filter_id_map_filter i rs :
  map id (filter (fun r => negb (id r =? i)) rs)
  = filter (fun j => negb (j =? i)) (map id rs).
Proof.
  induction rs as [|r rs IH]; simpl; [reflexivity|].
  destruct (negb (id r =? i)); simpl; now rewrite IH.
Qed.

(** One successful operation: the counter does not go back, ids the
    counter has passed name the record they named before, and the keys of
    the store change with the operation. *)
Lemma exec_history op s s' :
  store_wf s -> exec zUrl zCaption op s = Some s' ->
  currentId s <= currentId s' /\
  (forall j e1, j <= currentId s -> productImageStore.getById j s' = Some e1 ->
     exists e, productImageStore.getById j s = Some e /\ sameIdentity e1 e) /\
  map id (records s')
  = match op with
    | OpCreate _ _ => (map id (records s) ++ [currentId s + 1])%list
    | OpDelete i => filter (fun j => negb (j =? i)) (map id (records s))
    | OpUpdate _ _ _ | OpSetPrimary _ _ | OpReorder _ _ _ => map id (records s)
    end.
Proof.
  intros Hwf. unfold productImageStore.getById.
  destruct op as [now body|now i body|now i|now i body|i]; simpl.
  - destruct (productImageCreate _ _ _ _ _) as [[err|x] s1] eqn:R; [discriminate|].
    intros [= <-]. pose proof (productImageCreate_inr _ _ _ _ _ _ _ R) as V.
    rewrite productImageCreate_ok in R by assumption. injection R as _ <-.
    simpl. split; [lia|]. split.
    + intros j e1 Hj F. rewrite find_id_app in F. simpl in F.
      rewrite (proj2 (Z.eqb_neq (currentId s + 1) j)) in F by lia.
      destruct (truthyB _).
      * destruct (find _ (map _ _)) as [e0|] eqn:F0; [|discriminate].
        injection F as <-.
        apply getById_map_back in F0; [assumption|apply id_sweepRecord|].
        intros; apply sameIdentity_sweepRecord.
      * destruct (find _ (records s)) as [e0|]; [|discriminate].
        injection F as <-. eauto using sameIdentity_refl.
    + rewrite map_app. simpl. f_equal.
      destruct (truthyB _); [apply map_id_sweepRecord|reflexivity].
  - destruct (productImageUpdate _ _ _ _ _ _) as [[err|x] s1] eqn:R; [discriminate|].
    intros [= <-].
    destruct (productImageUpdate_inr _ _ _ _ _ _ _ _ R) as (V & V' & e & He).
    rewrite (productImageUpdate_ok _ _ _ _ _ _ e) in R by assumption.
    injection R as _ <-. simpl. split; [lia|]. split.
    + intros j e1 _ F.
      apply getById_map_back in F;
        [|intros; now apply id_updateRecord
         |intros; now apply sameIdentity_updateRecord].
      destruct F as (e0 & F & S0). destruct (_ && _); [|eauto].
      apply getById_map_back in F;
        [|apply id_sweepRecord|intros; apply sameIdentity_sweepRecord].
      destruct F as (e2 & F & S2). eauto using sameIdentity_trans.
    + rewrite map_id_updateRecord by reflexivity.
      destruct (_ && _); [apply map_id_sweepRecord|reflexivity].
  - destruct (productImageSetPrimary _ _ _) as [[err|x] s1] eqn:R; [discriminate|].
    intros [= <-]. destruct (productImageSetPrimary_inr _ _ _ _ _ R) as (V & e & He).
    rewrite (productImageSetPrimary_ok _ _ _ e) in R by assumption.
    injection R as _ <-. simpl. split; [lia|]. split.
    + intros j e1 _ F.
      apply getById_map_back in F;
        [|intros; now apply id_updateRecord
         |intros; now apply sameIdentity_updateRecord].
      destruct F as (e0 & F & S0).
      apply getById_map_back in F;
        [|apply id_sweepRecord|intros; apply sameIdentity_sweepRecord].
      destruct F as (e2 & F & S2). eauto using sameIdentity_trans.
    + rewrite map_id_updateRecord by reflexivity. apply map_id_sweepRecord.
  - destruct (productImageReorder _ _ _ _) as [[err|x] s1] eqn:R; [discriminate|].
    intros [= <-]. destruct (productImageReorder_inr _ _ _ _ _ _ R) as (V & V' & e & He).
    rewrite (productImageReorder_ok _ _ _ _ e) in R by assumption.
    injection R as _ <-. simpl. split; [lia|]. split.
    + intros j e1 _ F.
      apply getById_map_back in F;
        [|intros; now apply id_updateRecord
         |intros; now apply sameIdentity_updateRecord].
      assumption.
    + now apply map_id_updateRecord.
  - destruct (productImageDelete _ _) as [[err|x] s1] eqn:R; [discriminate|].
    intros [= <-]. destruct (productImageDelete_inr _ _ _ _ R) as (V & He).
    rewrite productImageDelete_ok in R by assumption. injection R as _ <-.
    simpl. split; [lia|]. split.
    + intros j e1 _ F. destruct (Z.eq_dec j i) as [->|Hne].
      * rewrite find_filter_self in F. discriminate.
      * rewrite find_filter_other in F by assumption. eauto using sameIdentity_refl.
    + apply filter_id_map_filter.
Qed.

Lemma run_history ops : forall s s',
  store_wf s -> run zUrl zCaption ops s = Some s' ->
  currentId s <= currentId s' /\
  (forall j e1, j <= currentId s -> productImageStore.getById j s' = Some e1 ->
     exists e, productImageStore.getById j s = Some e /\ sameIdentity e1 e).
Proof.
  induction ops as [|op ops IH]; simpl; intros s s' Hwf R.
  - injection R as <-. split; [lia|]. eauto using sameIdentity_refl.
  - destruct (exec zUrl zCaption op s) as [s1|] eqn:E; [|discriminate].
    destruct (exec_history op s s1 Hwf E) as (Hc & Hback & _).
    destruct (IH s1 s' (exec_store_wf zUrl zCaption op s s1 Hwf E) R) as (Hc' & Hback').
    split; [lia|]. intros j e1 Hj G.
    destruct (Hback' j e1 ltac:(lia) G) as (e0 & G0 & S0).
    destruct (Hback j e0 Hj G0) as (e & G1 & S1).
    eauto using sameIdentity_trans.
Qed.

(** X14: no sequence of successful operations changes the id, the
    product id or the creation date of a record that is still stored. *)
Theorem identity_fields_never_change ops s s' j e e' :
  store_wf s -> run zUrl zCaption ops s = Some s' ->
  productImageStore.getById j s = Some e ->
  productImageStore.getById j s' = Some e' ->
  id e' = id e /\ productId e' = productId e /\ dateCreated e' = dateCreated e.
Proof.
  intros Hwf R G G'.
  destruct (run_history ops s s' Hwf R) as (_ & Hback).
  destruct (getById_In _ _ _ G) as [Hin Hid].
  pose proof (wf_bound s Hwf e Hin) as Hb.
  destruct (Hback j e' ltac:(lia) G') as (e0 & G0 & S0).
  rewrite G in G0. injection G0 as <-. exact S0.
Qed.

(** X15: once delete has removed an id, get of that id fails with
    NOT_FOUND after any further successful operations. *)
Theorem deleted_id_never_returns ops i s s' :
  store_wf s -> run zUrl zCaption (OpDelete i :: ops) s = Some s' ->
  productImageGet i s' = (inl notFound, s').
Proof.
  intros Hwf R. simpl in R.
  destruct (productImageDelete i s) as [[err|x] s1] eqn:D; [discriminate|].
  destruct (productImageDelete_inr _ _ _ _ D) as (V & He).
  assert (E : exec zUrl zCaption (OpDelete i) s = Some s1) by (simpl; now rewrite D).
  pose proof (exec_store_wf zUrl zCaption _ s s1 Hwf E) as Hwf1.
  rewrite productImageDelete_ok in D by assumption. injection D as _ <-.
  destruct (run_history ops _ s' Hwf1 R) as (_ & Hback).
  apply productImageGet_missing; [assumption|].
  destruct (productImageStore.getById i s') as [e'|] eqn:G; [|reflexivity].
  exfalso.
  assert (Hi : i <= currentId s).
  { unfold productImageStore.exists_ in He. apply existsb_id in He.
    apply in_map_iff in He. destruct He as (r & <- & Hin).
    apply (wf_bound s Hwf) in Hin. lia. }
  destruct (Hback i e' Hi G) as (e0 & G0 & _).
  unfold productImageStore.getById in G0. simpl in G0.
  rewrite find_filter_self in G0. discriminate.
Qed.

(** X16: a successful create adds one id, the next one of the counter, to
    the ids the store returns; a delete removes its id; update, setPrimary
    and reorder keep the ids. *)
Theorem stored_ids_after_operation op s s' :
  store_wf s -> exec zUrl zCaption op s = Some s' ->
  Permutation (map id (productImageStore.getAll s')) (idsAfter op s).
Proof.
  intros Hwf E. destruct (exec_history op s s' Hwf E) as (_ & _ & H).
  unfold productImageStore.getAll.
  rewrite (Permutation_map id (Permutation_inRetrievalOrder (records s'))), H.
  pose proof (Permutation_map id (Permutation_inRetrievalOrder (records s))) as Hs.
  destruct op; simpl; unfold productImageStore.getAll; try (now symmetry).
  - rewrite <- Permutation_cons_append. constructor. now symmetry.
  - apply Permutation_filter. now symmetry.
Qed.

(** X18: two successive creates for one product, both without display
    order (omitted or 0), get consecutive display orders when every
    display order the product already has is below
    [Number.MAX_SAFE_INTEGER] in magnitude. *)
Theorem consecutive_auto_creates now1 now2 b1 b2 s :
  store_wf s ->
  createSchema zUrl zCaption b1 = true -> createSchema zUrl zCaption b2 = true ->
  CreateInput.productId b2 = CreateInput.productId b1 ->
  CreateInput.displayOrder b1 = None \/ CreateInput.displayOrder b1 = Some 0 ->
  CreateInput.displayOrder b2 = None \/ CreateInput.displayOrder b2 = Some 0 ->
  (forall q, In q (productImageStore.getByProductId (CreateInput.productId b1) s) ->
             Z.abs (displayOrder q) < MAX_SAFE_INTEGER) ->
  exists r1 s1 r2 s2,
    productImageCreate zUrl zCaption now1 b1 s = (inr r1, s1) /\
    productImageCreate zUrl zCaption now2 b2 s1 = (inr r2, s2) /\
    displayOrder r2 = displayOrder r1 + 1.
Proof.
  intros Hwf V1 V2 HP H1 H2 Hsafe.
  assert (E : exec zUrl zCaption (OpCreate now1 b1) s
              = Some (snd (productImageCreate zUrl zCaption now1 b1 s))).
  { simpl. now rewrite productImageCreate_ok by assumption. }
  pose proof (exec_store_wf zUrl zCaption _ _ _ Hwf E) as Hwf1.
  rewrite productImageCreate_ok in Hwf1 by assumption. simpl snd in Hwf1.
  eexists. eexists. eexists. eexists.
  split; [now apply productImageCreate_ok|].
  split; [now apply productImageCreate_ok|].
  set (s1 := {| records := _; currentId := currentId s + 1 |}) in *.
  assert (N1 : isNextDisplayOrder
                 (productImageStore.getByProductId (CreateInput.productId b1) s)
                 (resolvedDisplayOrder b1 s)).
  { apply resolvedDisplayOrder_next; [assumption|].
    intros q Hq. apply Z.leb_le. specialize (Hsafe q Hq). lia. }
  change (displayOrder (createdImage now2 b2 s1)) with (resolvedDisplayOrder b2 s1).
  change (displayOrder (createdImage now1 b1 s)) with (resolvedDisplayOrder b1 s).
  set (d1 := resolvedDisplayOrder b1 s) in *.
  assert (Hsib : forall q, In q (productImageStore.getByProductId (CreateInput.productId b2) s1) ->
            q = createdImage now1 b1 s \/
            exists q0, In q0 (productImageStore.getByProductId (CreateInput.productId b1) s)
                       /\ displayOrder q = displayOrder q0).
  { intros q Hq. apply In_getByProductId in Hq. destruct Hq as [Hq HqP].
    subst s1. simpl in Hq.
    apply in_app_iff in Hq. destruct Hq as [Hq|[<-|[]]]; [right|now left].
    rewrite HP in HqP.
    destruct (truthyB (CreateInput.isPrimary b1)).
    - apply in_map_iff in Hq. destruct Hq as (q0 & <- & Hq0).
      exists q0. rewrite displayOrder_sweepRecord. split; [|reflexivity].
      apply In_getByProductId. split; [assumption|].
      now rewrite productId_sweepRecord in HqP.
    - exists q. split; [|reflexivity]. apply In_getByProductId. auto. }
  assert (Hin1 : In (createdImage now1 b1 s)
                   (productImageStore.getByProductId (CreateInput.productId b2) s1)).
  { apply In_getByProductId. split.
    - subst s1. simpl. apply in_app_iff. right. now left.
    - simpl. now rewrite HP. }
  assert (Hlt : forall q0, In q0 (productImageStore.getByProductId
                                    (CreateInput.productId b1) s) ->
                           displayOrder q0 < d1).
  { intros q0 Hq0. unfold isNextDisplayOrder in N1.
    destruct (productImageStore.getByProductId (CreateInput.productId b1) s);
      [contradiction|]. now apply N1. }
  assert (Hd1 : Z.abs d1 <= MAX_SAFE_INTEGER).
  { unfold isNextDisplayOrder in N1.
    destruct (productImageStore.getByProductId (CreateInput.productId b1) s) as [|q0 qs].
    - rewrite N1. unfold MAX_SAFE_INTEGER. simpl. lia.
    - destruct N1 as ((q & Hq & Eq) & _). specialize (Hsafe q Hq). lia. }
  assert (N2 : isNextDisplayOrder
                 (productImageStore.getByProductId (CreateInput.productId b2) s1)
                 (resolvedDisplayOrder b2 s1)).
  { apply resolvedDisplayOrder_next; [assumption|].
    intros q Hq. apply Z.leb_le. destruct (Hsib q Hq) as [-> | (q0 & Hq0 & ->)].
    - exact Hd1.
    - specialize (Hsafe q0 Hq0). lia. }
  set (d2 := resolvedDisplayOrder b2 s1) in *.
  unfold isNextDisplayOrder in N2.
  destruct (productImageStore.getByProductId (CreateInput.productId b2) s1) as [|q0 qs];
    [contradiction|].
  destruct N2 as ((q & Hq & Eq) & Hub).
  pose proof (Hub _ Hin1) as Hd. simpl in Hd. fold d1 in Hd.
  destruct (Hsib q Hq) as [-> | (q1 & Hq1 & Eq1)].
  - exact Eq.
  - specialize (Hlt q1 Hq1). lia.
Qed.

End Further.


(** ** Concrete runs *)

Ltac prove_valid_records :=
  repeat constructor; unfold validRecord; simpl; repeat split; try lia; reflexivity.

(** Reordering image 2 of the sample gallery to 7. *)
Lemma reorder_overwrites_displayOrder_witness :
  exists msg s' u,
    productImageReorder "t3" 2 {| ReorderInput.newOrder := 7 |} galleryStore
    = (inr msg, s') /\
    productImageStore.getById 2 s' = Some u /\ displayOrder u = 7 /\
    productImageStore.getById 1 s'
    = Some (sampleImage 1 9 "https://x/a.jpg" (Some "front") true 4 "t1" "t1").
Proof.
  assert (Hwf : store_wf galleryStore) by prove_store_wf.
  assert (Hne : 1 <> 2) by lia.
  destruct (reorder_overwrites_displayOrder "t3" 2 {| ReorderInput.newOrder := 7 |}
              galleryStore (sampleImage 2 9 "https://x/b.jpg" None false 2 "t2" "t2")
              Hwf eq_refl eq_refl)
    as (msg & s' & u & R & G & D & _ & _ & _ & _ & _ & _ & _ & _ & _ & _ & Hother).
  exists msg, s', u. split; [exact R|]. split; [exact G|]. split; [exact D|].
  rewrite (Hother 1 Hne). reflexivity.
Defined.

(** Making image 2 of the sample gallery primary. *)
Lemma setPrimary_makes_sole_primary_witness :
  exists msg s' u,
    productImageSetPrimary "t3" 2 galleryStore = (inr msg, s') /\
    productImageStore.getById 2 s' = Some u /\ isPrimary u = true /\
    primaryCount 9 s' = 1%nat.
Proof.
  assert (Hwf : store_wf galleryStore) by prove_store_wf.
  destruct (setPrimary_makes_sole_primary "t3" 2 galleryStore
              (sampleImage 2 9 "https://x/b.jpg" None false 2 "t2" "t2")
              Hwf eq_refl)
    as (msg & s' & u & R & G & P & _ & _ & _ & C).
  exists msg, s', u. auto.
Defined.

(** Image 1, the old primary, when image 2 becomes primary. *)
Lemma setPrimary_touches_target_and_old_primaries_witness :
  exists msg s' r',
    productImageSetPrimary "t3" 2 galleryStore = (inr msg, s') /\
    productImageStore.getById 1 s' = Some r' /\
    isPrimary r' = false /\ dateModified r' = "t3".
Proof.
  assert (Hwf : store_wf galleryStore) by prove_store_wf.
  assert (Hne : 1 <> 2) by lia.
  destruct (setPrimary_touches_target_and_old_primaries "t3" 2 galleryStore
              (sampleImage 2 9 "https://x/b.jpg" None false 2 "t2" "t2") 1
              (sampleImage 1 9 "https://x/a.jpg" (Some "front") true 4 "t1" "t1")
              Hwf eq_refl eq_refl Hne)
    as (msg & s' & r' & R & G & _ & H & _).
  destruct (H eq_refl eq_refl) as (HP & HD & _).
  exists msg, s', r'. auto.
Defined.

(** A create for product 9 that gives only the url. *)
Lemma create_stores_record_with_defaults_witness :
  exists r s',
    productImageCreate sampleUrlCheck sampleCaptionCheck "t3"
      (sampleCreate 9 "https://x/c.jpg" None None) galleryStore = (inr r, s') /\
    productImageGet (id r) s' = (inr r, s') /\
    width r = 1200 /\ height r = 800 /\ rotation r = 0 /\ caption r = None /\
    isPrimary r = false.
Proof.
  assert (Hwf : store_wf galleryStore) by prove_store_wf.
  destruct (create_stores_record_with_defaults sampleUrlCheck sampleCaptionCheck "t3"
              (sampleCreate 9 "https://x/c.jpg" None None) galleryStore Hwf eq_refl)
    as (r & s' & R & _ & G & _ & _ & _ & _ & HC & HP & HW & HH & HR & _).
  exists r, s'. split; [exact R|]. split; [exact G|].
  split; [exact (HW eq_refl)|]. split; [exact (HH eq_refl)|].
  split; [exact (HR eq_refl)|]. split; [exact (HC (or_introl eq_refl))|].
  exact (HP eq_refl).
Defined.

(** Image 1 stays as it is when a non-primary image is created. *)
Lemma create_leaves_other_records_witness :
  exists r s',
    productImageCreate sampleUrlCheck sampleCaptionCheck "t3"
      (sampleCreate 9 "https://x/c.jpg" None None) galleryStore = (inr r, s') /\
    productImageStore.getById 1 s'
    = Some (sampleImage 1 9 "https://x/a.jpg" (Some "front") true 4 "t1" "t1").
Proof.
  assert (Hwf : store_wf galleryStore) by prove_store_wf.
  exact (create_leaves_other_records sampleUrlCheck sampleCaptionCheck "t3"
           (sampleCreate 9 "https://x/c.jpg" None None) galleryStore 1
           (sampleImage 1 9 "https://x/a.jpg" (Some "front") true 4 "t1" "t1")
           Hwf eq_refl eq_refl (or_introl eq_refl)).
Defined.

(** Id 0 with a stored gallery. *)
Lemma invalid_id_rejected_first_witness :
  0 <= 0 /\
  productImageGet 0 galleryStore = (inl (validationError "Invalid ID"), galleryStore) /\
  productImageDelete 0 galleryStore = (inl (validationError "Invalid ID"), galleryStore).
Proof.
  assert (H : 0 <= 0) by lia.
  destruct (invalid_id_rejected_first sampleUrlCheck sampleCaptionCheck "t3" 0
              (sampleUpdate "https://x/c.jpg" None None None)
              {| ReorderInput.newOrder := 3 |} galleryStore H)
    as (G & _ & D & _).
  auto.
Defined.

(** An update without url and a negative order, for an id that is not
    stored. *)
Lemma invalid_body_rejected_before_lookup_witness :
  productImageStore.getById 5 galleryStore = None /\
  productImageUpdate sampleUrlCheck sampleCaptionCheck "t3" 5
    (sampleUpdate "" None None None) galleryStore
  = (inl (validationError "Validation failed"), galleryStore) /\
  productImageReorder "t3" 5 {| ReorderInput.newOrder := -1 |} galleryStore
  = (inl (validationError "Validation failed"), galleryStore).
Proof.
  assert (H : 0 < 5) by lia.
  split; [reflexivity|].
  exact (invalid_body_rejected_before_lookup sampleUrlCheck sampleCaptionCheck "t3" 5
           (sampleUpdate "" None None None) {| ReorderInput.newOrder := -1 |}
           galleryStore H eq_refl eq_refl).
Defined.

(** An update of image 2 that sets the display order to 0. *)
Lemma update_applies_supplied_fields_witness :
  exists u s',
    productImageUpdate sampleUrlCheck sampleCaptionCheck "t3" 2
      (sampleUpdate "https://x/b.jpg" (Some (Some "side")) None (Some 0)) galleryStore
    = (inr (Some u), s') /\
    displayOrder u = 0 /\ caption u = Some "side".
Proof.
  assert (Hwf : store_wf galleryStore) by prove_store_wf.
  destruct (update_applies_supplied_fields sampleUrlCheck sampleCaptionCheck "t3" 2
              (sampleUpdate "https://x/b.jpg" (Some (Some "side")) None (Some 0))
              galleryStore (sampleImage 2 9 "https://x/b.jpg" None false 2 "t2" "t2")
              Hwf eq_refl eq_refl)
    as (u & s' & R & _ & HC & _ & HD & _).
  exists u, s'. split; [exact R|]. split; [exact (HD 0 eq_refl)|exact (HC "side" eq_refl)].
Defined.

(** An update that makes image 2 primary while image 1 is. *)
Lemma update_to_primary_gives_exactly_one_witness :
  exists u s',
    productImageUpdate sampleUrlCheck sampleCaptionCheck "t3" 2
      (sampleUpdate "https://x/b.jpg" None (Some true) None) galleryStore
    = (inr (Some u), s') /\
    primaryCount 9 s' = 1%nat.
Proof.
  assert (Hwf : store_wf galleryStore) by prove_store_wf.
  assert (HI : atMostOnePrimary 9 galleryStore)
    by (unfold atMostOnePrimary, primaryCount; simpl; lia).
  destruct (update_to_primary_gives_exactly_one sampleUrlCheck sampleCaptionCheck "t3" 2
              (sampleUpdate "https://x/b.jpg" None (Some true) None)
              galleryStore (sampleImage 2 9 "https://x/b.jpg" None false 2 "t2" "t2")
              Hwf HI eq_refl eq_refl eq_refl)
    as (u & s' & R & _ & _ & C).
  exists u, s'. auto.
Defined.

(** An update that takes the primary flag from image 1. *)
Lemma update_unsetting_primary_leaves_none_witness :
  exists u s',
    productImageUpdate sampleUrlCheck sampleCaptionCheck "t3" 1
      (sampleUpdate "https://x/a.jpg" None (Some false) None) galleryStore
    = (inr (Some u), s') /\
    primaryCount 9 s' = 0%nat.
Proof.
  assert (Hwf : store_wf galleryStore) by prove_store_wf.
  assert (HI : atMostOnePrimary 9 galleryStore)
    by (unfold atMostOnePrimary, primaryCount; simpl; lia).
  exact (update_unsetting_primary_leaves_none sampleUrlCheck sampleCaptionCheck "t3" 1
           (sampleUpdate "https://x/a.jpg" None (Some false) None)
           galleryStore (sampleImage 1 9 "https://x/a.jpg" (Some "front") true 4 "t1" "t1")
           Hwf HI eq_refl eq_refl eq_refl eq_refl).
Defined.

(** The field ranges along the scenario run. *)
Lemma field_ranges_preserved_witness :
  exists s',
    run sampleUrlCheck sampleCaptionCheck scenarioOps productImageStore.init = Some s' /\
    Forall validRecord (records s').
Proof.
  assert (Hwf : store_wf productImageStore.init) by prove_store_wf.
  assert (Hv : Forall validRecord (records productImageStore.init)) by constructor.
  eexists. split; [vm_compute; reflexivity|].
  apply (field_ranges_preserved sampleUrlCheck sampleCaptionCheck scenarioOps
           productImageStore.init _ Hwf Hv).
  vm_compute. reflexivity.
Defined.

(** Image 1 before and after the scenario's setPrimary, update and
    reorder. *)
Lemma identity_fields_never_change_witness :
  exists s' e',
    run sampleUrlCheck sampleCaptionCheck
      [OpSetPrimary "t3" 2; OpUpdate "t4" 1 (sampleUpdate "https://x/c.jpg" None None None);
       OpReorder "t5" 1 {| ReorderInput.newOrder := 7 |}] galleryStore = Some s' /\
    productImageStore.getById 1 s' = Some e' /\
    productId e' = 9 /\ dateCreated e' = "t1".
Proof.
  assert (Hwf : store_wf galleryStore) by prove_store_wf.
  destruct (run sampleUrlCheck sampleCaptionCheck
              [OpSetPrimary "t3" 2;
               OpUpdate "t4" 1 (sampleUpdate "https://x/c.jpg" None None None);
               OpReorder "t5" 1 {| ReorderInput.newOrder := 7 |}] galleryStore)
    as [s'|] eqn:R; [|vm_compute in R; discriminate].
  destruct (productImageStore.getById 1 s') as [e'|] eqn:G;
    [|exfalso; vm_compute in R; injection R as <-; vm_compute in G; discriminate].
  exists s', e'. split; [reflexivity|]. split; [exact G|].
  destruct (identity_fields_never_change sampleUrlCheck sampleCaptionCheck _
              galleryStore s' 1
              (sampleImage 1 9 "https://x/a.jpg" (Some "front") true 4 "t1" "t1")
              e' Hwf R eq_refl G) as (_ & HP & HD).
  split; [exact HP|exact HD].
Defined.

(** Image 2 is deleted, then two more operations run. *)
Lemma deleted_id_never_returns_witness :
  exists s',
    run sampleUrlCheck sampleCaptionCheck
      [OpDelete 2; OpCreate "t3" (sampleCreate 9 "https://x/c.jpg" None None);
       OpSetPrimary "t4" 3] galleryStore = Some s' /\
    productImageGet 2 s' = (inl notFound, s').
Proof.
  assert (Hwf : store_wf galleryStore) by prove_store_wf.
  eexists. split; [vm_compute; reflexivity|].
  apply (deleted_id_never_returns sampleUrlCheck sampleCaptionCheck
           [OpCreate "t3" (sampleCreate 9 "https://x/c.jpg" None None);
            OpSetPrimary "t4" 3] 2 galleryStore _ Hwf).
  vm_compute. reflexivity.
Defined.

(** The ids after a create and after a delete on the sample gallery. *)
Lemma stored_ids_after_operation_witness :
  (exists s',
     exec sampleUrlCheck sampleCaptionCheck
       (OpCreate "t3" (sampleCreate 9 "https://x/c.jpg" None None)) galleryStore = Some s' /\
     Permutation (map id (productImageStore.getAll s')) [3; 2; 1]) /\
  (exists s',
     exec sampleUrlCheck sampleCaptionCheck (OpDelete 1) galleryStore = Some s' /\
     Permutation (map id (productImageStore.getAll s')) [2]).
Proof.
  assert (Hwf : store_wf galleryStore) by prove_store_wf.
  split.
  - eexists. split; [vm_compute; reflexivity|].
    apply (stored_ids_after_operation sampleUrlCheck sampleCaptionCheck
             (OpCreate "t3" (sampleCreate 9 "https://x/c.jpg" None None))
             galleryStore _ Hwf).
    vm_compute. reflexivity.
  - eexists. split; [vm_compute; reflexivity|].
    apply (stored_ids_after_operation sampleUrlCheck sampleCaptionCheck
             (OpDelete 1) galleryStore _ Hwf).
    vm_compute. reflexivity.
Defined.

(** Two creates without display order next to siblings with display
    orders 4 and 2. *)
Lemma consecutive_auto_creates_witness :
  exists r1 s1 r2 s2,
    productImageCreate sampleUrlCheck sampleCaptionCheck "t3"
      (sampleCreate 9 "https://x/c.jpg" None None) galleryStore = (inr r1, s1) /\
    productImageCreate sampleUrlCheck sampleCaptionCheck "t4"
      (sampleCreate 9 "https://x/d.jpg" (Some true) (Some 0)) s1 = (inr r2, s2) /\
    displayOrder r2 = displayOrder r1 + 1.
Proof.
  assert (Hwf : store_wf galleryStore) by prove_store_wf.
  assert (Hsafe : forall q,
             In q (productImageStore.getByProductId 9 galleryStore) ->
             Z.abs (displayOrder q) < MAX_SAFE_INTEGER).
  { intros q Hq. vm_compute in Hq. destruct Hq as [<- |[<- |[]]]; reflexivity. }
  exact (consecutive_auto_creates sampleUrlCheck sampleCaptionCheck "t3" "t4"
           (sampleCreate 9 "https://x/c.jpg" None None)
           (sampleCreate 9 "https://x/d.jpg" (Some true) (Some 0))
           galleryStore Hwf eq_refl eq_refl eq_refl
           (or_introl eq_refl) (or_intror eq_refl) Hsafe).
Defined.


End EngineExtras.

(** * Further properties of the gallery controller *)

Module GalleryExtras.
Import Gallery GalleryTheory.

Lemma zoomIn_level st z :
  zoomLevel st == z -> (z <= 5 # 2)%Q -> zoomLevel (zoomIn st) == z + (1 # 2).
Proof.
  intros E H. unfold zoomIn. simpl.
  destruct (Q.min_spec (zoomLevel st + (1 # 2)) 3) as [[_ ->]|[H1 ->]]; lra.
Qed.

Lemma zoomIn_top st : zoomLevel st == 3 -> zoomLevel (zoomIn st) == 3.
Proof.
  intros E. unfold zoomIn. simpl.
  destruct (Q.min_spec (zoomLevel st + (1 # 2)) 3) as [[H1 ->]|[H1 ->]]; lra.
Qed.

Lemma zoomOut_level st z :
  zoomLevel st == z -> (3 # 2 <= z)%Q -> zoomLevel (zoomOut st) == z - (1 # 2).
Proof.
  intros E H. unfold zoomOut. simpl.
  destruct (Q.max_spec (zoomLevel st - (1 # 2)) 1) as [[H1 ->]|[H1 ->]]; lra.
Qed.

Lemma zoomOut_bottom st : zoomLevel st == 1 -> zoomLevel (zoomOut st) == 1.
Proof.
  intros E. unfold zoomOut. simpl.
  destruct (Q.max_spec (zoomLevel st - (1 # 2)) 1) as [[H1 ->]|[H1 ->]]; lra.
Qed.

Lemma zoomOnGrid_one : zoomOnGrid 1.
Proof. left. reflexivity. Qed.

Lemma stepView_zoomOnGrid ev st :
  zoomOnGrid (zoomLevel st) -> zoomOnGrid (zoomLevel (stepView ev st)).
Proof.
  intros G.
  assert (Hin : zoomOnGrid (zoomLevel (zoomIn st))).
  { destruct G as [E|[E|[E|[E|E]]]].
    - right; left. rewrite (zoomIn_level st 1 E); lra.
    - right; right; left. rewrite (zoomIn_level st (3 # 2) E); lra.
    - right; right; right; left. rewrite (zoomIn_level st 2 E); lra.
    - right; right; right; right. rewrite (zoomIn_level st (5 # 2) E); lra.
    - right; right; right; right. now apply zoomIn_top. }
  assert (Hout : zoomOnGrid (zoomLevel (zoomOut st))).
  { destruct G as [E|[E|[E|[E|E]]]].
    - left. now apply zoomOut_bottom.
    - left. rewrite (zoomOut_level st (3 # 2) E); lra.
    - right; left. rewrite (zoomOut_level st 2 E); lra.
    - right; right; left. rewrite (zoomOut_level st (5 # 2) E); lra.
    - right; right; right; left. rewrite (zoomOut_level st 3 E); lra. }
  destruct ev as [ev|]; simpl.
  - destruct ev as [| |index| | | | | |k|data]; simpl;
      try assumption; try apply zoomOnGrid_one.
    + unfold goToNext. destruct (imagesLength st =? 0); [assumption|apply zoomOnGrid_one].
    + unfold goToPrevious. destruct (imagesLength st =? 0); [assumption|apply zoomOnGrid_one].
    + destruct k; simpl; try assumption; try apply zoomOnGrid_one.
      * unfold goToPrevious. destruct (imagesLength st =? 0); [assumption|apply zoomOnGrid_one].
      * unfold goToNext. destruct (imagesLength st =? 0); [assumption|apply zoomOnGrid_one].
      * destruct (imagesLength st =? 0); [assumption|apply zoomOnGrid_one].
      * destruct (isFullscreen st); assumption.
  - unfold handleImageClick. destruct (Qeq_bool (zoomLevel st) 1); assumption.
Qed.

(** X19: from a zoom level among 1.0, 1.5, 2.0, 2.5 and 3.0, every
    sequence of hook events and clicks on the image leaves the zoom level
    among them, hence between 1.0 and 3.0. *)
Theorem zoom_stays_on_grid evs : forall st,
  zoomOnGrid (zoomLevel st) ->
  zoomOnGrid (zoomLevel (runView evs st)) /\
  (1 <= zoomLevel (runView evs st) <= 3)%Q.
Proof.
  assert (H : forall st, zoomOnGrid (zoomLevel st) -> zoomOnGrid (zoomLevel (runView evs st))).
  { induction evs as [|ev evs IH]; simpl; intros st G; [assumption|].
    apply IH. now apply stepView_zoomOnGrid. }
  intros st G. split; [now apply H|].
  destruct (H st G) as [E|[E|[E|[E|E]]]]; rewrite E; lra.
Qed.

(** X20: below 3.0, zoom in followed by zoom out gives the zoom level
    back, as does zoom out followed by zoom in above 1.0; zoom in at 3.0
    and zoom out at 1.0 keep the level. *)
Theorem zoom_in_then_out_returns st :
  zoomOnGrid (zoomLevel st) ->
  (~ zoomLevel st == 3 -> zoomLevel (zoomOut (zoomIn st)) == zoomLevel st) /\
  (~ zoomLevel st == 1 -> zoomLevel (zoomIn (zoomOut st)) == zoomLevel st) /\
  (zoomLevel st == 3 -> zoomLevel (zoomIn st) == 3) /\
  (zoomLevel st == 1 -> zoomLevel (zoomOut st) == 1).
Proof.
  intros G. split; [|split; [|split]].
  - intros H3.
    assert (Hz : (zoomLevel st <= 5 # 2)%Q)
      by (destruct G as [E|[E|[E|[E|E]]]]; try contradiction; rewrite E; lra).
    assert (H1 : (1 <= zoomLevel st)%Q)
      by (destruct G as [E|[E|[E|[E|E]]]]; rewrite E; lra).
    pose proof (zoomIn_level st (zoomLevel st) (Qeq_refl _) Hz) as Ein.
    rewrite (zoomOut_level (zoomIn st) (zoomLevel st + (1 # 2)) Ein); lra.
  - intros H1.
    assert (Hz : (3 # 2 <= zoomLevel st)%Q)
      by (destruct G as [E|[E|[E|[E|E]]]]; try contradiction; rewrite E; lra).
    assert (H3 : (zoomLevel st <= 3)%Q)
      by (destruct G as [E|[E|[E|[E|E]]]]; rewrite E; lra).
    pose proof (zoomOut_level st (zoomLevel st) (Qeq_refl _) Hz) as Eout.
    rewrite (zoomIn_level (zoomOut st) (zoomLevel st - (1 # 2)) Eout); lra.
  - apply zoomIn_top.
  - apply zoomOut_bottom.
Qed.

Lemma rotateImage_quarterTurn st :
  quarterTurn (rotation st) -> quarterTurn (rotation (rotateImage st)).
Proof.
  unfold quarterTurn, rotateImage, jsRem. simpl.
  intros [-> | [-> | [-> | ->]]]; vm_compute; tauto.
Qed.

Lemma stepView_quarterTurn ev st :
  quarterTurn (rotation st) -> quarterTurn (rotation (stepView ev st)).
Proof.
  intros G. assert (H0 : quarterTurn 0) by (left; reflexivity).
  destruct ev as [ev|]; simpl.
  - destruct ev as [| |index| | | | | |k|data]; simpl; try assumption.
    + unfold goToNext. destruct (imagesLength st =? 0); assumption.
    + unfold goToPrevious. destruct (imagesLength st =? 0); assumption.
    + now apply rotateImage_quarterTurn.
    + destruct k; simpl; try assumption.
      * unfold goToPrevious. destruct (imagesLength st =? 0); assumption.
      * unfold goToNext. destruct (imagesLength st =? 0); assumption.
      * destruct (imagesLength st =? 0); assumption.
      * destruct (isFullscreen st); assumption.
  - unfold handleImageClick. destruct (Qeq_bool (zoomLevel st) 1); assumption.
Qed.

(** X21: from a rotation of 0, 90, 180 or 270, every sequence of hook
    events and clicks on the image leaves the rotation among them. *)
Theorem rotation_stays_quarter_turn evs : forall st,
  quarterTurn (rotation st) -> quarterTurn (rotation (runView evs st)).
Proof.
  induction evs as [|ev evs IH]; simpl; intros st G; [assumption|].
  apply IH. now apply stepView_quarterTurn.
Qed.

(** X22: four rotations give the state back. *)
Theorem four_rotations_return st :
  quarterTurn (rotation st) -> times 4 rotateImage st = st.
Proof.
  destruct st as [imgs i z r f]. unfold quarterTurn. simpl.
  intros [-> | [-> | [-> | ->]]]; reflexivity.
Qed.

Lemma indexInBounds_length st : indexInBounds st -> 1 <= imagesLength st.
Proof. unfold indexInBounds. lia. Qed.

Lemma currentImage_inBounds st :
  indexInBounds st -> exists img, currentImage st = Some img.
Proof.
  unfold indexInBounds, currentImage, imagesLength. intros [H0 H1].
  rewrite (proj2 (Z.ltb_ge _ _) H0).
  destruct (nth_error (images st) (Z.to_nat (currentIndex st))) as [img|] eqn:N; [eauto|].
  apply nth_error_None in N. lia.
Qed.

Lemma stepView_inBounds ev st :
  indexInBounds st -> staysInList (imagesLength st) ev ->
  indexInBounds (stepView ev st) /\ images (stepView ev st) = images st.
Proof.
  intros B Hev. pose proof (indexInBounds_length st B) as HN.
  assert (Hnext : indexInBounds (goToNext st) /\ images (goToNext st) = images st).
  { split; [apply goToNext_inBounds; unfold indexInBounds in B; lia|].
    unfold goToNext. now destruct (imagesLength st =? 0). }
  assert (Hprev : indexInBounds (goToPrevious st) /\ images (goToPrevious st) = images st).
  { split; [apply goToPrevious_inBounds; unfold indexInBounds in B; lia|].
    unfold goToPrevious. now destruct (imagesLength st =? 0). }
  destruct ev as [ev|]; simpl.
  - destruct ev as [| |index| | | | | |k|data]; simpl in *;
      try assumption; try (split; [exact B|reflexivity]).
    + split; [|reflexivity]. unfold indexInBounds, imagesLength in *. simpl. lia.
    + destruct k; simpl; try assumption; try (split; [exact B|reflexivity]).
      * split; [|reflexivity]. unfold indexInBounds, imagesLength in *. simpl. lia.
      * destruct (Z.eqb_spec (imagesLength st) 0); [lia|].
        split; [|reflexivity]. unfold indexInBounds, imagesLength in *. simpl. lia.
      * destruct (isFullscreen st); split; try exact B; reflexivity.
    + contradiction.
  - unfold handleImageClick. destruct (Qeq_bool (zoomLevel st) 1);
      split; try exact B; reflexivity.
Qed.

(** X23: while the list is not refreshed and jumps go to indexes of the
    list, the index stays within the bounds of the list and the current
    image is defined. *)
Theorem index_stays_in_bounds_without_refresh evs : forall st,
  indexInBounds st -> Forall (staysInList (imagesLength st)) evs ->
  indexInBounds (runView evs st) /\
  images (runView evs st) = images st /\
  exists img, currentImage (runView evs st) = Some img.
Proof.
  assert (H : forall st, indexInBounds st -> Forall (staysInList (imagesLength st)) evs ->
                         indexInBounds (runView evs st) /\
                         images (runView evs st) = images st).
  { induction evs as [|ev evs IH]; simpl; intros st B Hall; [auto|].
    inversion Hall as [|ev' evs' Hev Hall']; subst.
    destruct (stepView_inBounds ev st B Hev) as [B1 I1].
    assert (L : imagesLength (stepView ev st) = imagesLength st)
      by (unfold imagesLength; now rewrite I1).
    destruct (IH (stepView ev st) B1) as [B2 I2]; [now rewrite L|].
    split; [assumption|congruence]. }
  intros st B Hall. destruct (H st B Hall) as [B' I'].
  split; [assumption|]. split; [assumption|]. now apply currentImage_inBounds.
Qed.


Lemma goToNext_index st :
  1 <= imagesLength st -> 0 <= currentIndex st ->
  currentIndex (goToNext st) = (currentIndex st + 1) mod imagesLength st /\
  images (goToNext st) = images st.
Proof.
  intros HN H0. unfold goToNext, jsRem.
  destruct (Z.eqb_spec (imagesLength st) 0); [lia|]. simpl.
  now rewrite Z.rem_mod_nonneg by lia.
Qed.

Lemma goToPrevious_index st :
  1 <= imagesLength st -> 0 <= currentIndex st ->
  currentIndex (goToPrevious st)
  = (currentIndex st - 1 + imagesLength st) mod imagesLength st /\
  images (goToPrevious st) = images st.
Proof.
  intros HN H0. unfold goToPrevious, jsRem.
  destruct (Z.eqb_spec (imagesLength st) 0); [lia|]. simpl.
  now rewrite Z.rem_mod_nonneg by lia.
Qed.

(** X24: from an index within bounds, next followed by previous and
    previous followed by next give the index back. *)
Theorem next_and_previous_undo_each_other st :
  indexInBounds st ->
  currentIndex (goToPrevious (goToNext st)) = currentIndex st /\
  currentIndex (goToNext (goToPrevious st)) = currentIndex st.
Proof.
  intros B. pose proof (indexInBounds_length st B) as HN.
  unfold indexInBounds in B.
  destruct (goToNext_index st HN ltac:(lia)) as [En In].
  destruct (goToPrevious_index st HN ltac:(lia)) as [Ep Ip].
  assert (Ln : imagesLength (goToNext st) = imagesLength st)
    by (unfold imagesLength; now rewrite In).
  assert (Lp : imagesLength (goToPrevious st) = imagesLength st)
    by (unfold imagesLength; now rewrite Ip).
  pose proof (Z.mod_pos_bound (currentIndex st + 1) (imagesLength st) ltac:(lia)) as Bn.
  pose proof (Z.mod_pos_bound (currentIndex st - 1 + imagesLength st) (imagesLength st)
                ltac:(lia)) as Bp.
  split.
  - destruct (goToPrevious_index (goToNext st)) as [E _]; [lia|lia|].
    rewrite E, Ln, En.
    destruct (Z.eq_dec (currentIndex st) (imagesLength st - 1)) as [Hl|Hl].
    + replace (currentIndex st + 1) with (imagesLength st) by lia.
      rewrite Z.mod_same by lia.
      replace (0 - 1 + imagesLength st) with (currentIndex st) by lia.
      apply Z.mod_small. lia.
    + rewrite (Z.mod_small (currentIndex st + 1)) by lia.
      replace (currentIndex st + 1 - 1 + imagesLength st)
        with (currentIndex st + 1 * imagesLength st) by lia.
      rewrite Z.mod_add by lia. apply Z.mod_small. lia.
  - destruct (goToNext_index (goToPrevious st)) as [E _]; [lia|lia|].
    rewrite E, Lp, Ep.
    destruct (Z.eq_dec (currentIndex st) 0) as [Hz|Hz].
    + rewrite Hz. replace (0 - 1 + imagesLength st) with (imagesLength st - 1) by lia.
      rewrite (Z.mod_small (imagesLength st - 1)) by lia.
      replace (imagesLength st - 1 + 1) with (imagesLength st) by lia.
      apply Z.mod_same. lia.
    + replace (currentIndex st - 1 + imagesLength st)
        with (currentIndex st - 1 + 1 * imagesLength st) by lia.
      rewrite Z.mod_add by lia. rewrite (Z.mod_small (currentIndex st - 1)) by lia.
      replace (currentIndex st - 1 + 1) with (currentIndex st) by lia.
      apply Z.mod_small. lia.
Qed.

Lemma times_goToNext_index k : forall st,
  indexInBounds st ->
  currentIndex (times k goToNext st)
  = (currentIndex st + Z.of_nat k) mod imagesLength st /\
  images (times k goToNext st) = images st.
Proof.
  induction k as [|k IH]; intros st B.
  - simpl. unfold indexInBounds in B. rewrite Z.add_0_r.
    split; [|reflexivity]. symmetry. apply Z.mod_small. lia.
  - pose proof (indexInBounds_length st B) as HN.
    assert (B1 : indexInBounds (goToNext st))
      by (apply goToNext_inBounds; unfold indexInBounds in B; lia).
    destruct (goToNext_index st HN) as [En In]; [unfold indexInBounds in B; lia|].
    assert (Ln : imagesLength (goToNext st) = imagesLength st)
      by (unfold imagesLength; now rewrite In).
    cbn [times]. destruct (IH (goToNext st) B1) as [E I].
    split; [|congruence].
    rewrite E, Ln, En. rewrite Zplus_mod_idemp_l. f_equal. lia.
Qed.

(** X25: from an index within bounds, as many steps to the next image
    as the list has images give the index back. *)
Theorem next_through_the_whole_list_returns st :
  indexInBounds st ->
  currentIndex (times (List.length (images st)) goToNext st) = currentIndex st.
Proof.
  intros B. destruct (times_goToNext_index (List.length (images st)) st B) as [E _].
  rewrite E. fold (imagesLength st).
  pose proof (indexInBounds_length st B) as HN. unfold indexInBounds in B.
  replace (currentIndex st + imagesLength st)
    with (currentIndex st + 1 * imagesLength st) by lia.
  rewrite Z.mod_add by lia. apply Z.mod_small. lia.
Qed.

Lemma nth_error_last {A : Type} (l : list A) (d : A) :
  l <> [] -> nth_error l (List.length l - 1) = Some (last l d).
Proof.
  induction l as [|a l IH]; [congruence|]. intros _.
  destruct l as [|b l']; [reflexivity|].
  simpl List.length. replace (S (S (List.length l')) - 1)%nat with (S (List.length l'))
    by lia.
  change (last (a :: b :: l') d) with (last (b :: l') d).
  simpl nth_error. rewrite <- IH by discriminate.
  simpl List.length. f_equal. lia.
Qed.

(** X26: on a list that is not empty, Home shows the first image and End
    the last one; the left arrow after Home arrives where End does, and
    the right arrow after End where Home does. *)
Theorem home_and_end_keys st first rest :
  images st = first :: rest ->
  currentImage (handleKeyDown Home st) = Some first /\
  currentImage (handleKeyDown End_ st) = Some (last rest first) /\
  currentIndex (handleKeyDown ArrowLeft (handleKeyDown Home st))
  = currentIndex (handleKeyDown End_ st) /\
  currentIndex (handleKeyDown ArrowRight (handleKeyDown End_ st))
  = currentIndex (handleKeyDown Home st).
Proof.
  intros I.
  assert (HN : imagesLength st = Z.of_nat (List.length rest) + 1)
    by (unfold imagesLength; rewrite I; simpl List.length; lia).
  assert (Hne : (imagesLength st =? 0) = false) by (apply Z.eqb_neq; lia).
  simpl handleKeyDown. rewrite Hne.
  assert (LH : imagesLength (goToImage 0 st) = imagesLength st) by reflexivity.
  assert (LE : imagesLength (goToImage (imagesLength st - 1) st) = imagesLength st)
    by reflexivity.
  split; [|split; [|split]].
  - unfold currentImage. simpl. now rewrite I.
  - unfold currentImage. cbn [goToImage currentIndex images].
    rewrite (proj2 (Z.ltb_ge _ _)) by lia. rewrite I, HN.
    replace (Z.to_nat (Z.of_nat (List.length rest) + 1 - 1))
      with (List.length (first :: rest) - 1)%nat by (simpl; lia).
    rewrite (nth_error_last (first :: rest) first) by discriminate.
    destruct rest; reflexivity.
  - destruct (goToPrevious_index (goToImage 0 st)) as [E _]; [rewrite LH; lia|simpl; lia|].
    rewrite E, LH. cbn [goToImage currentIndex].
    replace (0 - 1 + imagesLength st) with (imagesLength st - 1) by lia.
    apply Z.mod_small. lia.
  - destruct (goToNext_index (goToImage (imagesLength st - 1) st)) as [E _];
      [rewrite LE; lia|simpl; lia|].
    rewrite E, LE. cbn [goToImage currentIndex].
    replace (imagesLength st - 1 + 1) with (imagesLength st) by lia.
    apply Z.mod_same. lia.
Qed.



(** ** Concrete runs *)

(** Five zoom-ins, a click and two zoom-outs from the initial state. *)
Lemma zoom_stays_on_grid_witness :
  zoomOnGrid (zoomLevel initialState) /\
  zoomLevel (runView [HookEvent ZoomIn; HookEvent ZoomIn; HookEvent ZoomIn;
                      HookEvent ZoomIn; HookEvent ZoomIn] initialState) == 3 /\
  (1 <= zoomLevel (runView [HookEvent ZoomIn; ImageClick; HookEvent ZoomOut;
                            HookEvent ZoomOut] initialState) <= 3)%Q.
Proof.
  assert (G : zoomOnGrid (zoomLevel initialState)) by (left; reflexivity).
  split; [exact G|]. split; [reflexivity|].
  exact (proj2 (zoom_stays_on_grid
                  [HookEvent ZoomIn; ImageClick; HookEvent ZoomOut; HookEvent ZoomOut]
                  initialState G)).
Defined.

(** Zoom in and out again from the initial zoom level. *)
Lemma zoom_in_then_out_returns_witness :
  zoomOnGrid (zoomLevel initialState) /\
  zoomLevel (zoomOut (zoomIn initialState)) == zoomLevel initialState.
Proof.
  assert (G : zoomOnGrid (zoomLevel initialState)) by (left; reflexivity).
  assert (H3 : ~ zoomLevel initialState == 3) by (intros H; vm_compute in H; discriminate).
  split; [exact G|].
  exact (proj1 (zoom_in_then_out_returns initialState G) H3).
Defined.

(** Three rotations and a key press from the initial state. *)
Lemma rotation_stays_quarter_turn_witness :
  quarterTurn (rotation initialState) /\
  quarterTurn
    (rotation (runView [HookEvent RotateImage; HookEvent RotateImage;
                        HookEvent RotateImage; HookEvent (KeyDown Escape)] initialState)).
Proof.
  assert (G : quarterTurn (rotation initialState)) by (left; reflexivity).
  split; [exact G|].
  exact (rotation_stays_quarter_turn _ initialState G).
Defined.

(** Four rotations of a view rotated by 90 degrees. *)
Lemma four_rotations_return_witness :
  quarterTurn (rotation (rotateImage initialState)) /\
  times 4 rotateImage (rotateImage initialState) = rotateImage initialState.
Proof.
  assert (G : quarterTurn (rotation (rotateImage initialState)))
    by (right; left; reflexivity).
  split; [exact G|]. exact (four_rotations_return _ G).
Defined.

(** Keys, a jump and zooms on a list of three images. *)
Lemma index_stays_in_bounds_without_refresh_witness :
  indexInBounds (refresh threeImages initialState) /\
  indexInBounds
    (runView [HookEvent (KeyDown ArrowLeft); HookEvent (GoToImage 1); HookEvent ZoomIn;
              HookEvent (KeyDown End_); HookEvent GoToNext]
       (refresh threeImages initialState)).
Proof.
  assert (B : indexInBounds (refresh threeImages initialState))
    by (unfold indexInBounds; vm_compute; split; discriminate).
  split; [exact B|].
  refine (proj1 (index_stays_in_bounds_without_refresh _ _ B _)).
  repeat constructor; vm_compute; discriminate.
Defined.

(** Next then previous from the last of three images. *)
Lemma next_and_previous_undo_each_other_witness :
  indexInBounds (goToImage 2 (refresh threeImages initialState)) /\
  currentIndex (goToPrevious (goToNext (goToImage 2 (refresh threeImages initialState))))
  = 2.
Proof.
  assert (B : indexInBounds (goToImage 2 (refresh threeImages initialState)))
    by (unfold indexInBounds; vm_compute; split; discriminate).
  split; [exact B|].
  exact (proj1 (next_and_previous_undo_each_other _ B)).
Defined.

(** Three times next on a list of three images. *)
Lemma next_through_the_whole_list_returns_witness :
  indexInBounds (goToImage 1 (refresh threeImages initialState)) /\
  currentIndex (times 3 goToNext (goToImage 1 (refresh threeImages initialState))) = 1.
Proof.
  assert (B : indexInBounds (goToImage 1 (refresh threeImages initialState)))
    by (unfold indexInBounds; vm_compute; split; discriminate).
  split; [exact B|].
  exact (next_through_the_whole_list_returns _ B).
Defined.

(** Home and End on a list of three images. *)
Lemma home_and_end_keys_witness :
  currentImage (handleKeyDown Home (refresh threeImages initialState))
  = Some (galleryImage 1) /\
  currentImage (handleKeyDown End_ (refresh threeImages initialState))
  = Some (galleryImage 3).
Proof.
  destruct (home_and_end_keys (refresh threeImages initialState) (galleryImage 1)
              [galleryImage 2; galleryImage 3] eq_refl) as (H & E & _).
  split; [exact H|exact E].
Defined.


End GalleryExtras.
